(** * Ant colony optimisation for the travelling salesman problem

    A shallow embedding of [main/main.go].  Go's [float64] is Rocq's primitive
    binary64 [float], so sums, products, quotients, comparisons, infinities
    and NaN behave as they do in the program.  Go's [int] values used here are
    counters and slice positions; they are natural numbers.  A slice is a
    list, and reading or writing outside of it is a run-time panic.

    The package-level parameters ([rho], [qval], [alpha], [beta], [numAnts],
    [times], [tours]) are the fields of a [config]; the package-level
    variables that change during a run are passed from step to step.

    Two things live outside of the program text and are arguments of the
    model: [math.Pow] (the variable [Pow]) and the generator behind
    [rand.Intn] and [rand.Float64] (a [Source]).  The unbounded [for] of
    [goToNewCity] runs on fuel.  The plot is not modelled: a run of [main]
    starts from the list of cities and ends with what [main] has recorded
    for each experiment.

    [readFile], [getDim] and [tokenize] are modelled on their own, on the
    lines that the scanner yields; [strconv.Atoi] and [strconv.ParseFloat]
    are arguments of that part. *)

From Stdlib Require Import Floats ZArith Lia.
From Stdlib Require Uint63.
From stdpp Require Import base list.
From Stdlib Require String Ascii.
Import String.StringSyntax Ascii.AsciiSyntax.
Delimit Scope string_scope with string.
Delimit Scope char_scope with char.

#[local] Set Warnings "-inexact-float".

(** ** Outcomes *)

(** What running a piece of the program gives: a value, a run-time panic
    (index out of range, division of an [int] by zero, [rand.Intn] of a
    non-positive bound), or no answer within the fuel. *)
Inductive result (A : Type) : Type :=
| Ok (a : A)
| Panic
| Timeout.
Arguments Ok {A} a.
Arguments Panic {A}.
Arguments Timeout {A}.

#[global] Instance result_ret : MRet result := fun A a => Ok a.
#[global] Instance result_bind : MBind result :=
  fun A B f m => match m with Ok a => f a | Panic => Panic | Timeout => Timeout end.

(** [foldM f b l]: a [for] loop over [l] whose body may panic. *)
Fixpoint foldM {A B : Type} (f : B -> A -> result B) (b : B) (l : list A) : result B :=
  match l with
  | [] => Ok b
  | a :: l' => b' ← f b a; foldM f b' l'
  end.

(** ** Slices *)

Abbreviation matrix := (list (list float)).

(** [s[i]] *)
Definition index {A : Type} (s : list A) (i : nat) : result A :=
  match s !! i with Some a => Ok a | None => Panic end.

(** [s[i] = v] *)
Definition store {A : Type} (s : list A) (i : nat) (v : A) : result (list A) :=
  if (i <? length s)%nat then Ok (<[i := v]> s) else Panic.

(** [m[i][j]] *)
Definition index2 (m : matrix) (i j : nat) : result float :=
  row ← index m i; index row j.

(** [m[i][j] = v] *)
Definition store2 (m : matrix) (i j : nat) (v : float) : result matrix :=
  row ← index m i; row' ← store row j v; store m i row'.

(** [copy(dst, src)]: the first [min (len dst) (len src)] elements of [dst]
    are overwritten. *)
Definition copy {A : Type} (dst src : list A) : list A :=
  take (length dst) src ++ drop (length src) dst.

(** [a % n] on [int]. *)
Definition modulo (a n : nat) : result nat :=
  if (n =? 0)%nat then Panic else Ok (a mod n).

(** [float64(n)] *)
Definition float64_of_int (n : nat) : float :=
  of_uint63 (Uint63.of_Z (Z.of_nat n)).

(** ** The random source *)

(** The state of [math/rand]'s generator: the value its [k]-th call returns,
    read as a [float64] by [rand.Float64] and as an [int] by [rand.Intn],
    and the number of calls made so far. *)
Record Source := mkSource {
  float64_at : nat -> float;
  int_at : nat -> nat;
  calls : nat
}.

Definition advance (s : Source) : Source :=
  mkSource (float64_at s) (int_at s) (S (calls s)).

(** [rand.Float64()] *)
Definition rand_Float64 (s : Source) : float * Source :=
  (float64_at s (calls s), advance s).

(** [rand.Intn(n)]: in [[0, n)], panics when [n <= 0]. *)
Definition rand_Intn (n : nat) (s : Source) : result (nat * Source) :=
  if (n =? 0)%nat then Panic else Ok (int_at s (calls s) mod n, advance s).

(** ** Data *)

Record city := mkCity { x : float; y : float }.

Record ant_t := mkAnt {
  tabulist : list nat;
  currentCity : nat;
  nextCity : nat;
  tour : list nat;
  tourIndex : nat;
  tourlength : float
}.

(** The package-level parameters of the algorithm. *)
Record config := mkConfig {
  rho : float;
  qval : float;
  alpha : float;
  beta : float;
  numAnts : nat;
  times : nat;
  tours : nat
}.

(** Their values in the program text. *)
Definition defaults : config :=
  mkConfig 0.6 1.0 0.8 0.8 10 10 500.

(** ** The program *)

Section Program.

Variable Pow : float -> float -> float.

(** [calEdge] *)
Definition calEdge (c1 c2 : city) : float :=
  Pow (Pow (y c2 - y c1) 2 + Pow (y c2 - y c1) 2) 0.5.

(** [initGraph], from the cities that [readFile] returned: the adjacency
    matrix ([numCities] is [length cities]). *)
Definition initGraph (cities : list city) : matrix :=
  map (fun ci => map (fun cj => calEdge ci cj) cities) cities.

(** [initTrail] *)
Definition initTrail (numCities : nat) : matrix :=
  map (fun i => map (fun j => if negb (i =? j)%nat then 1%float else 0%float)
                    (seq 0 numCities))
      (seq 0 numCities).

(** The ant that [initAnts] sets up when [rand.Intn] answers [c]. *)
Definition new_ant (numCities c : nat) : ant_t :=
  mkAnt (replicate numCities 0%nat) c 0 (replicate numCities 0%nat) 0 0%float.

(** [initAnts]: [n] ants are still to be set up. *)
Fixpoint initAnts_loop (n numCities : nat) (src : Source) : result (list ant_t * Source) :=
  match n with
  | O => Ok ([], src)
  | S n' =>
      '(c, src1) ← rand_Intn numCities src;
      '(rest, src2) ← initAnts_loop n' numCities src1;
      Ok (new_ant numCities c :: rest, src2)
  end.

Definition initAnts (cfg : config) (numCities : nat) (src : Source) :
  result (list ant_t * Source) :=
  initAnts_loop (numAnts cfg) numCities src.

Section Moves.

Variable cfg : config.
Variable numCities : nat.
Variables tauMatrix adjMatrix : matrix.

(** [math.Pow(tau, alpha) * math.Pow(1.0/adj, beta)] *)
Definition desirability (t a : float) : float :=
  (Pow t (alpha cfg) * Pow (1 / a) (beta cfg))%float.

(** One turn of the first loop of [goToNewCity]. *)
Definition denom_step (ant : ant_t) (from : nat) (denom : float) (to : nat) : result float :=
  if negb (from =? to)%nat then
    tb ← index (tabulist ant) to;
    if (tb =? 0)%nat then
      t ← index2 tauMatrix from to;
      if negb (t =? 0)%float then
        a ← index2 adjMatrix from to;
        if negb (a =? 0)%float then Ok (denom + desirability t a)%float else Ok denom
      else Ok denom
    else Ok denom
  else Ok denom.

Definition denominator (ant : ant_t) (from : nat) : result float :=
  foldM (denom_step ant from) 0%float (seq 0 numCities).

(** The second loop of [goToNewCity], [for { ... }], entered at [to]. *)
Fixpoint scan (ant : ant_t) (from : nat) (denom : float)
  (fuel : nat) (to : nat) (src : Source) : result (nat * Source) :=
  match fuel with
  | O => Timeout
  | S fuel' =>
      if negb (from =? to)%nat then
        tb ← index (tabulist ant) to;
        if (tb =? 0)%nat then
          t ← index2 tauMatrix from to;
          a ← index2 adjMatrix from to;
          let p := (desirability t a / denom)%float in
          let '(r, src') := rand_Float64 src in
          if (r <? p)%float then Ok (to, src')
          else to' ← modulo (to + 1) numCities; scan ant from denom fuel' to' src'
        else to' ← modulo (to + 1) numCities; scan ant from denom fuel' to' src
      else to' ← modulo (to + 1) numCities; scan ant from denom fuel' to' src
  end.

(** [goToNewCity] *)
Definition goToNewCity (fuel : nat) (ant : ant_t) (src : Source) : result (ant_t * Source) :=
  let from := currentCity ant in
  denom ← denominator ant from;
  '(to, src') ← scan ant from denom fuel 0 src;
  tabulist' ← store (tabulist ant) to 1%nat;
  tour' ← store (tour ant) (tourIndex ant) to;
  let tourIndex' := S (tourIndex ant) in
  edge ← index2 adjMatrix (currentCity ant) to;
  let tourlength' := (tourlength ant + edge)%float in
  tourlength'' ←
    (if (tourIndex' =? numCities)%nat then
       last ← index tour' (numCities - 1);
       first ← index tour' 0;
       closing ← index2 adjMatrix last first;
       Ok (tourlength' + closing)%float
     else Ok tourlength');
  Ok (mkAnt tabulist' to to tour' tourIndex' tourlength'', src').

(** The inner loop of [moveAnts]: [steps] calls of [goToNewCity] on one ant. *)
Fixpoint moveAnt (fuel : nat) (steps : nat) (ant : ant_t) (src : Source) :
  result (ant_t * Source) :=
  match steps with
  | O => Ok (ant, src)
  | S steps' =>
      '(ant', src') ← goToNewCity fuel ant src;
      moveAnt fuel steps' ant' src'
  end.

(** [moveAnts] *)
Fixpoint moveAnts (fuel : nat) (ants : list ant_t) (src : Source) :
  result (list ant_t * Source) :=
  match ants with
  | [] => Ok ([], src)
  | ant :: rest =>
      '(ant', src1) ← moveAnt fuel numCities ant src;
      '(rest', src2) ← moveAnts fuel rest src1;
      Ok (ant' :: rest', src2)
  end.

End Moves.

(** [intensifyTrail]: the body of the inner loop, for ant [i] and position [c]. *)
Definition deposit (cfg : config) (numCities : nat) (ants : list ant_t)
  (i : nat) (tau : matrix) (c : nat) : result matrix :=
  ant ← index ants i;
  from ← index (tour ant) c;
  c' ← modulo (c + 1) numCities;
  ant' ← index ants i;
  to ← index (tour ant') c';
  ant'' ← index ants i;
  let deltatau := (qval cfg / tourlength ant'')%float in
  old ← index2 tau from to;
  tau1 ← store2 tau from to (old + deltatau)%float;
  v ← index2 tau1 from to;
  store2 tau1 to from v.

(** [intensifyTrail] *)
Definition intensifyTrail (cfg : config) (numCities : nat) (ants : list ant_t)
  (tau : matrix) : result matrix :=
  foldM (fun tau i => foldM (deposit cfg numCities ants i) tau (seq 0 numCities))
        tau (seq 0 (numAnts cfg)).

(** [evaporatePheromone], on one entry. *)
Definition evaporate_entry (cfg : config) (t : float) : float :=
  let t' := (t * (1.0 - rho cfg))%float in
  if (t' <? 0.0)%float then 1.0%float else t'.

(** [evaporatePheromone]: the two counters run over every entry of the
    [numCities] by [numCities] matrix. *)
Definition evaporatePheromone (cfg : config) (tau : matrix) : matrix :=
  map (map (evaporate_entry cfg)) tau.

(** [calculateAvg] *)
Definition calculateAvg (cfg : config) (ants : list ant_t) : result float :=
  ant0 ← index ants 0;
  let avglength := tourlength ant0 in
  let total := fold_left (fun total ant => (total + tourlength ant)%float) ants 0.0%float in
  let avglength := (total / float64_of_int (times cfg))%float in
  Ok avglength.

(** [calculateBest]: the length it returns and the new [besttour]
    ([None] is the nil slice). *)
Definition calculateBest (numCities : nat) (ants : list ant_t)
  (besttour : option (list nat)) : result (float * list nat) :=
  ant0 ← index ants 0;
  let bestlength := tourlength ant0 in
  let besttour :=
    match besttour with
    | None => copy (replicate numCities 0%nat) (tour ant0)
    | Some b => b
    end in
  Ok (fold_left
        (fun '(bestlength, besttour) ant =>
           if (tourlength ant <? bestlength)%float
           then (tourlength ant, copy besttour (tour ant))
           else (bestlength, besttour))
        ants (bestlength, besttour)).

(** The package-level variables that change while [main] runs, the two
    accumulators of the current experiment ([besttourlens[i]] and
    [avgtourlens[i]]) and, as a ghost, every ant the experiment has moved. *)
Record state := mkState {
  tauMatrix : matrix;
  besttour : option (list nat);
  rand : Source;
  besttourlen : float;
  avgtourlen : float;
  moved : list ant_t
}.

(** One turn of the inner loop of [main]. *)
Definition round (cfg : config) (numCities : nat) (adjMatrix : matrix)
  (fuel : nat) (st : state) : result state :=
  '(ants0, src1) ← initAnts cfg numCities (rand st);
  '(ants, src2) ← moveAnts cfg numCities (tauMatrix st) adjMatrix fuel ants0 src1;
  tau' ← intensifyTrail cfg numCities ants (tauMatrix st);
  '(best, besttour') ← calculateBest numCities ants (besttour st);
  avg ← calculateAvg cfg ants;
  Ok (mkState tau' (Some besttour') src2
        (besttourlen st + best)%float (avgtourlen st + avg)%float
        (moved st ++ ants)).

(** [for iterations < tours { ... }] *)
Fixpoint rounds (cfg : config) (numCities : nat) (adjMatrix : matrix)
  (fuel : nat) (n : nat) (st : state) : result state :=
  match n with
  | O => Ok st
  | S n' => st' ← round cfg numCities adjMatrix fuel st;
            rounds cfg numCities adjMatrix fuel n' st'
  end.

(** What one turn of the outer loop of [main] prints and records
    ([optimal_path], [avgavg], [avgbest]); ghosts: the pheromone matrix when
    the turn begins and when its rounds are over, and the ants it moved. *)
Record report := mkReport {
  tau_begin : matrix;
  tau_rounds : matrix;
  optimal_path : option (list nat);
  avgavg : float;
  avgbest : float;
  ants_moved : list ant_t
}.

(** One turn of the outer loop of [main], entered with pheromone [tau]. *)
Definition experiment (cfg : config) (numCities : nat) (adjMatrix : matrix)
  (fuel : nat) (tau : matrix) (src : Source) : result (report * matrix * Source) :=
  st ← rounds cfg numCities adjMatrix fuel (tours cfg)
         (mkState tau None src 0%float 0%float []);
  let tau' := evaporatePheromone cfg (tauMatrix st) in
  Ok (mkReport tau (tauMatrix st) (besttour st)
        (avgtourlen st / float64_of_int (tours cfg))%float
        (besttourlen st / float64_of_int (tours cfg))%float
        (moved st),
      tau', rand st).

(** [for i < times { ... }] *)
Fixpoint experiments (cfg : config) (numCities : nat) (adjMatrix : matrix)
  (fuel : nat) (n : nat) (tau : matrix) (src : Source) : result (list report) :=
  match n with
  | O => Ok []
  | S n' =>
      '(r, tau', src') ← experiment cfg numCities adjMatrix fuel tau src;
      rs ← experiments cfg numCities adjMatrix fuel n' tau' src';
      Ok (r :: rs)
  end.

(** [main], from the cities read from the file up to the plot. *)
Definition main (cfg : config) (cities : list city) (fuel : nat) (src : Source) :
  result (list report) :=
  let numCities := length cities in
  let adjMatrix := initGraph cities in
  experiments cfg numCities adjMatrix fuel (times cfg) (initTrail numCities) src.

End Program.

(** ** [math.Pow] on the arguments the examples use *)

(** [isOddInt] of pow.go. *)
Definition isOddInt (v : float) : bool :=
  match Prim2SF v with
  | S754_finite _ m e =>
      match e with
      | Z0 => Z.odd (Zpos m)
      | Zpos _ => false
      | Zneg k => (Zpos m mod 2 ^ Zpos k =? 0)%Z && Z.odd (Zpos m / 2 ^ Zpos k)
      end
  | _ => false
  end.

(** [math.Pow(x, v)] for [x == 0], [v] neither zero nor NaN. *)
Definition Pow_zero (x v : float) : float :=
  if (v <? 0)%float
  then (if get_sign x && isOddInt v then neg_infinity else infinity)
  else (if get_sign x && isOddInt v then x else 0%float).

(** [math.Pow] as pow.go decides it without its general loop: the special
    cases of its documentation, in their order, and the square roots taken
    for the exponents 0.5 and -0.5; and the square, for which the loop
    multiplies the base by itself once.  Every other pair of arguments is
    outside of this definition, which answers NaN there (the true answer
    for a negative base and a fractional exponent). *)
Definition Pow_special (x v : float) : float :=
  if (v =? 0)%float || (x =? 1)%float then 1%float
  else if (v =? 1)%float then x
  else if is_nan x || is_nan v then nan
  else if (x =? 0)%float then Pow_zero x v
  else if is_infinity v then
    (if (x =? -1)%float then 1%float
     else if Bool.eqb (abs x <? 1)%float (v =? infinity)%float then 0%float
     else infinity)
  else if is_infinity x then
    (if (x =? neg_infinity)%float then Pow_zero (1 / x)%float (- v)%float
     else if (v <? 0)%float then 0%float else infinity)
  else if (v =? 0.5)%float then PrimFloat.sqrt x
  else if (v =? -0.5)%float then (1 / PrimFloat.sqrt x)%float
  else if (v =? 2)%float then (x * x)%float
  else nan.

(** ** Sources for the examples *)

(** What one call of the generator answers. *)
Inductive answer :=
| Float64 (r : float)
| Intn (k : nat).

(** The source whose calls answer the entries of [l] in turn, and
    [Float64 0] and [Intn 0] once [l] is used up. *)
Definition script (l : list answer) : Source :=
  mkSource (fun k => match nth k l (Float64 0) with Float64 r => r | Intn _ => 0%float end)
           (fun k => match nth k l (Intn 0) with Intn i => i | Float64 _ => 0%nat end)
           0.

(** ** Sequences of pheromone updates *)

(** A call of [evaporatePheromone], or of [intensifyTrail] with the ants of
    the moment. *)
Inductive call :=
| Evaporate
| Intensify (ants : list ant_t).

Definition run_call (cfg : config) (numCities : nat) (tau : matrix) (c : call) :
  result matrix :=
  match c with
  | Evaporate => Ok (evaporatePheromone cfg tau)
  | Intensify ants => intensifyTrail cfg numCities ants tau
  end.

Definition run_calls (cfg : config) (numCities : nat) (calls : list call)
  (tau : matrix) : result matrix :=
  foldM (run_call cfg numCities) tau calls.

(** Both coordinates of the city are numbers: neither infinite nor NaN. *)
Definition finite_city (c : city) : Prop :=
  is_finite (x c) = true /\ is_finite (y c) = true.

(** ** Reading the cities *)

(** What reading the file ends with: a value, [os.Exit(2)] after the error
    has been printed, or a run-time panic. *)
Inductive outcome (A : Type) : Type :=
| Returns (a : A)
| Exits
| Panics.
Arguments Returns {A} a.
Arguments Exits {A}.
Arguments Panics {A}.

#[global] Instance outcome_ret : MRet outcome := fun A a => Returns a.
#[global] Instance outcome_bind : MBind outcome :=
  fun A B f m => match m with Returns a => f a | Exits => Exits | Panics => Panics end.

(** [s[i]] and [s[i] = v] while reading. *)
Definition item {A : Type} (s : list A) (i : nat) : outcome A :=
  match s !! i with Some a => Returns a | None => Panics end.

Definition put {A : Type} (s : list A) (i : nat) (v : A) : outcome (list A) :=
  if (i <? length s)%nat then Returns (<[i := v]> s) else Panics.

(** [strings.Contains(s, substr)] *)
Fixpoint Contains (s substr : String.string) : bool :=
  String.prefix substr s ||
  match s with
  | String.EmptyString => false
  | String.String _ s' => Contains s' substr
  end.
Arguments Contains (s substr)%_string.

(** [strings.Split(s, sep)] for a separator of one byte: the parts of [s]
    between the occurrences of [sep], one more than there are occurrences. *)
Fixpoint Split (s : String.string) (sep : Ascii.ascii) : list String.string :=
  match s with
  | String.EmptyString => [String.EmptyString]
  | String.String c s' =>
      if Ascii.eqb c sep then String.EmptyString :: Split s' sep
      else match Split s' sep with
           | part :: parts => String.String c part :: parts
           | [] => [String.String c String.EmptyString]
           end
  end.
Arguments Split s%_string sep%_char.

(** [strings.TrimLeft(s, cutset)] for a cutset of one byte. *)
Fixpoint TrimLeft (s : String.string) (c : Ascii.ascii) : String.string :=
  match s with
  | String.String a s' => if Ascii.eqb a c then TrimLeft s' c else s
  | String.EmptyString => s
  end.
Arguments TrimLeft s%_string c%_char.

(** What [os.Open] and the scanner give [readFile]: no file, or the lines
    that [scanner.Scan] yields one after the other, and whether
    [scanner.Err] reports an error when [readFile] asks. *)
Inductive file :=
| NoFile
| File (lines : list String.string) (err : bool).

Section Reading.

(** [strconv.Atoi] and [strconv.ParseFloat(_, 64)]; [None] is an error. *)
Variable Atoi : String.string -> option Z.
Variable ParseFloat : String.string -> option float.

(** [getDim] *)
Definition getDim (str : String.string) : outcome Z :=
  let s := Split str ":" in
  s1 ← item s 1;
  let num := TrimLeft s1 " " in
  match Atoi num with
  | Some dim => Returns dim
  | None => Exits
  end.

(** [tokenize] *)
Definition tokenize (str : String.string) : outcome (float * float) :=
  let s := Split str " " in
  strX ← item s 1;
  strY ← item s 2;
  x ← (match ParseFloat strX with Some x => Returns x | None => Exits end);
  y ← (match ParseFloat strY with Some y => Returns y | None => Exits end);
  Returns (x, y).

(** The first loop of [readFile]: up to the first line that contains
    DIMENSION.  It gives [dim] and the lines that are left. *)
Fixpoint scan_dimension (lines : list String.string) : outcome (Z * list String.string) :=
  match lines with
  | [] => Returns (0%Z, [])
  | str :: rest =>
      if Contains str "DIMENSION" then dim ← getDim str; Returns (dim, rest)
      else scan_dimension rest
  end.

(** [make([]city, dim)]: a negative length is a panic. *)
Definition make_cities (dim : Z) : outcome (list city) :=
  if (dim <? 0)%Z then Panics else Returns (replicate (Z.to_nat dim) (mkCity 0 0)).

(** The second loop of [readFile]. *)
Fixpoint scan_cities (dim : Z) (lines : list String.string)
  (cities : list city) (i : nat) (startFlag : bool) : outcome (list city) :=
  match lines with
  | [] => Returns cities
  | str :: rest =>
      if Contains str "EOF" then Returns cities
      else if startFlag then
        '(x, y) ← tokenize str;
        if (Z.of_nat i <=? dim)%Z then
          cities' ← put cities (i - 1) (mkCity x y);
          scan_cities dim rest cities' (S i) startFlag
        else scan_cities dim rest cities i false
      else if Contains str "NODE_COORD_SECTION" then scan_cities dim rest cities i true
      else scan_cities dim rest cities i startFlag
  end.

(** [readFile] *)
Definition readFile (f : file) : outcome (list city) :=
  match f with
  | NoFile => Exits
  | File lines err =>
      '(dim, rest) ← scan_dimension lines;
      cities ← make_cities dim;
      cities' ← scan_cities dim rest cities 1 false;
      if err then Exits else Returns cities'
  end.

End Reading.

Arguments getDim Atoi str%_string.
Arguments tokenize ParseFloat str%_string.

(** ** [strconv] on the strings the examples use *)

(** The value of a decimal digit. *)
Definition digit (c : Ascii.ascii) : option Z :=
  let n := Z.of_N (Ascii.N_of_ascii c) in
  if (48 <=? n)%Z && (n <=? 57)%Z then Some (n - 48)%Z else None.

(** The number that the decimal digits of [s] denote, after [acc]. *)
Fixpoint digits (s : String.string) (acc : Z) : option Z :=
  match s with
  | String.EmptyString => Some acc
  | String.String c s' => d ← digit c; digits s' (10 * acc + d)%Z
  end.

(** [strconv.Atoi]: an optional sign and at least one decimal digit, the
    value within the 64 bits of [int]; everything else is an error. *)
Definition Atoi_decimal (s : String.string) : option Z :=
  let in_range (v : Z) := if (- 2 ^ 63 <=? v)%Z && (v <? 2 ^ 63)%Z then Some v else None in
  match s with
  | String.EmptyString => None
  | String.String c s' =>
      if Ascii.eqb c "-"%char then
        match s' with
        | String.EmptyString => None
        | _ => n ← digits s' 0; in_range (- n)%Z
        end
      else if Ascii.eqb c "+"%char then
        match s' with
        | String.EmptyString => None
        | _ => n ← digits s' 0; in_range n
        end
      else n ← digits s 0; in_range n
  end.

(** [strconv.ParseFloat(s, 64)] on the strings of decimal digits that denote
    an integer below 2^53, which is the [float64] returned.  Every other
    string is outside of this definition, which answers with an error
    there. *)
Definition ParseFloat_digits (s : String.string) : option float :=
  match s with
  | String.EmptyString => None
  | _ => n ← digits s 0;
         if (n <? 2 ^ 53)%Z then Some (of_uint63 (Uint63.of_Z n)) else None
  end.

(** ** Notions used by the properties *)

(** What [v < 0] being false says of the float [v], on its specification. *)
Definition nonneg_SF (s : spec_float) : Prop :=
  match s with
  | S754_nan | S754_zero _ | S754_infinity false | S754_finite false _ _ => True
  | _ => False
  end.

(** The cost of walking [path] city by city, each edge added in turn to [acc]. *)
Fixpoint walk (adj : matrix) (acc : float) (path : list nat) : result float :=
  match path with
  | a :: (b :: _) as rest => e ← index2 adj a b; walk adj (acc + e)%float rest
  | _ => Ok acc
  end.

(** An ant after [k] calls of [goToNewCity]: [k] distinct cities are on its
    tour, and their tabu entries are 1. *)
Definition visiting (numCities k : nat) (ant : ant_t) : Prop :=
  tourIndex ant = k /\ length (tour ant) = numCities /\
  length (tabulist ant) = numCities /\
  NoDup (take k (tour ant)) /\
  forall c, c ∈ take k (tour ant) -> tabulist ant !! c = Some 1.

(** The length an ant that left from [c] has accumulated after [k] calls:
    the cost of its walk so far, closed once the tour is complete. *)
Definition walked (numCities : nat) (adjMatrix : matrix) (c k : nat) (ant : ant_t) : Prop :=
  if (k =? numCities)%nat
  then walk adjMatrix 0%float (c :: tour ant ++ take 1 (tour ant)) = Ok (tourlength ant)
  else walk adjMatrix 0%float (c :: take k (tour ant)) = Ok (tourlength ant) /\
       last (c :: take k (tour ant)) = Some (currentCity ant).

(** An [n] by [n] matrix. *)
Definition square (n : nat) (m : matrix) : Prop :=
  length m = n /\ Forall (fun row => length row = n) m.

(** No entry below zero, row by row. *)
Definition not_negative (m : matrix) : Prop :=
  Forall (Forall (fun v => (v <? 0)%float = false)) m.

(** An ant that [initAnts] placed on [c], after [k] calls of [goToNewCity]:
    before the first call it stands on [c]; afterwards it stands on the
    city it entered last in its tour, and the first city of the tour is not
    [c]. *)
Definition standing (c k : nat) (ant : ant_t) : Prop :=
  match k with
  | O => currentCity ant = c
  | S k' => tour ant !! k' = Some (currentCity ant) /\
            nextCity ant = currentCity ant /\
            exists first, tour ant !! 0 = Some first /\ first <> c
  end.

(** A run that does not panic, and whose result, if there is one, has [P]. *)
Definition safe {A : Type} (P : A -> Prop) (r : result A) : Prop :=
  match r with
  | Ok a => P a
  | Panic => False
  | Timeout => True
  end.

(** An ant whose fields stay within a graph of [numCities] cities. *)
Definition roaming (numCities : nat) (ant : ant_t) : Prop :=
  currentCity ant < numCities /\
  length (tabulist ant) = numCities /\
  length (tour ant) = numCities /\
  Forall (fun c => c < numCities) (tour ant).

(** The two directions of every edge hold the same value. *)
Definition symmetric (m : matrix) : Prop :=
  forall i j, index2 m i j = index2 m j i.

(** What the sign bit of [v] being clear says of the float [v], on its
    specification ([-0] has it set, NaN has none). *)
Definition unsigned_SF (s : spec_float) : Prop :=
  match s with
  | S754_nan | S754_zero false | S754_infinity false | S754_finite false _ _ => True
  | _ => False
  end.

(** ** Inputs of the examples *)

(** The parameters of the program text, with both exponents set to 1
    ([math.Pow(x, 1)] is [x]). *)
Definition linear : config := mkConfig 0.6 1.0 1.0 1.0 10 10 500.

Definition two_cities : list city := [mkCity 0 0; mkCity 0 1].

Definition four_cities : list city := [mkCity 0 0; mkCity 1 1; mkCity 0 2; mkCity 1 3].

(** One ant, two rounds, one experiment. *)
Definition two_rounds : config := mkConfig 0.6 1.0 1.0 1.0 1 1 2.

(** The answers that send the ant of the first round along 0, 2, 1, 3, 0
    and the ant of the second round along 0, 1, 2, 3, 0. *)
Definition two_rounds_script : Source :=
  script [Intn 0; Float64 0.99; Float64 0; Float64 0.99; Float64 0;
          Float64 0.99; Float64 0; Float64 0;
          Intn 0; Float64 0; Float64 0.99; Float64 0; Float64 0.99;
          Float64 0; Float64 0].

(** The parameters of [linear] with two ants in the colony. *)
Definition two_ants : config := mkConfig 0.6 1.0 1.0 1.0 2 10 500.

(** One ant, one round, two experiments. *)
Definition two_experiments : config := mkConfig 0.6 1.0 1.0 1.0 1 2 1.

(** Two cities too far apart for [float64]: the edge between them costs
    [+Inf], and its desirability is 0. *)
Definition far_cities : list city := [mkCity 0 0; mkCity 0 1e200].

(** The parameters of the program text with full evaporation. *)
Definition full_evaporation : config := mkConfig 1.0 1.0 0.8 0.8 10 10 500.

(** An ant with a finished tour over two cities. *)
Definition done_ant : ant_t := mkAnt [1; 1] 0 0 [1; 0] 2 3%float.

(** A file of three cities. *)
Definition three_cities_file : list String.string :=
  ["NAME : three"; "TYPE : TSP"; "DIMENSION : 3"; "EDGE_WEIGHT_TYPE : EUC_2D";
   "NODE_COORD_SECTION"; "1 0 0"; "2 3 4"; "3 6 8"; "EOF"]%string.

(** * Properties *)

(** ** binary64 arithmetic *)

Section Float64.

#[local] Open Scope float_scope.

Lemma ltb_nan_r (r : float) : (r <? nan) = false.
Proof.
  rewrite FloatAxioms.ltb_spec. change (Prim2SF nan) with S754_nan.
  destruct (Prim2SF r); reflexivity.
Qed.

Lemma eqb_zero_SF (v : float) :
  (v =? 0) = true -> exists s, Prim2SF v = S754_zero s.
Proof.
  rewrite FloatAxioms.eqb_spec. change (Prim2SF 0) with (S754_zero false).
  destruct (Prim2SF v) as [s|s| |s m e]; cbn; try discriminate; eauto.
  - destruct s; discriminate.
  - destruct s; discriminate.
Qed.

Lemma div_zero_zero (v z : float) :
  (v =? 0) = true -> (z =? 0) = true -> v / z = nan.
Proof.
  intros [s Hv]%eqb_zero_SF [s' Hz]%eqb_zero_SF.
  apply Prim2SF_inj. rewrite div_spec, Hv, Hz. reflexivity.
Qed.

Lemma SFcompare_refl_finite s m e :
  SFcompare (S754_finite s m e) (S754_finite s m e) = Some Eq.
Proof.
  cbn. rewrite Z.compare_refl, Pos.compare_cont_refl. destruct s; reflexivity.
Qed.

Lemma is_finite_SF (t : float) :
  is_finite t = true ->
  (exists s, Prim2SF t = S754_zero s) \/ exists s m e, Prim2SF t = S754_finite s m e.
Proof.
  unfold is_finite, is_nan, is_infinity.
  rewrite !FloatAxioms.eqb_spec, abs_spec.
  change (Prim2SF infinity) with (S754_infinity false).
  destruct (Prim2SF t) as [s|s| |s m e]; cbn; try discriminate; eauto.
  rewrite orb_true_r. discriminate.
Qed.

Lemma mul_zero_r (t : float) :
  is_finite t = true -> exists s, Prim2SF (t * 0) = S754_zero s.
Proof.
  intros H. rewrite mul_spec. change (Prim2SF 0) with (S754_zero false).
  destruct (is_finite_SF t H) as [[s ->]|(s & m & e & ->)]; cbn; eauto.
Qed.

Lemma SF_zero_not_neg (v : float) s : Prim2SF v = S754_zero s -> (v <? 0) = false.
Proof. intros H. rewrite FloatAxioms.ltb_spec, H. reflexivity. Qed.

Lemma SF_zero_eqb (v : float) s : Prim2SF v = S754_zero s -> (v =? 0) = true.
Proof. intros H. rewrite FloatAxioms.eqb_spec, H. reflexivity. Qed.

Lemma sub_diag (t : float) : is_finite t = true -> t - t = 0.
Proof.
  intros H. apply Prim2SF_inj. rewrite sub_spec.
  change (Prim2SF 0) with (S754_zero false).
  destruct (is_finite_SF t H) as [[s ->]|(s & m & e & ->)].
  - destruct s; reflexivity.
  - unfold SF64sub, SFsub. rewrite Z.sub_diag. reflexivity.
Qed.

(** Rounding does not look at the sign. *)
Lemma binary_round_aux_opp sx mx ex lx :
  binary_round_aux prec emax (negb sx) mx ex lx
  = SFopp (binary_round_aux prec emax sx mx ex lx).
Proof.
  unfold binary_round_aux.
  destruct (shr_fexp prec emax mx ex lx) as [mrs' e'].
  destruct (shr_fexp prec emax _ e' loc_Exact) as [mrs'' e''].
  destruct (shr_m mrs''); try reflexivity.
  destruct (Z.leb e'' (emax - prec)); reflexivity.
Qed.

Lemma binary_normalize_opp m e :
  m <> 0%Z ->
  binary_normalize prec emax (- m) e false
  = SFopp (binary_normalize prec emax m e false).
Proof.
  destruct m as [|p|p]; [congruence| |]; intros _.
  - change (- Z.pos p)%Z with (Z.neg p). unfold binary_normalize, binary_round.
    destruct (shl_align _ _ _) as [mz ez].
    apply (binary_round_aux_opp false).
  - change (- Z.neg p)%Z with (Z.pos p). unfold binary_normalize, binary_round.
    destruct (shl_align _ _ _) as [mz ez].
    rewrite (binary_round_aux_opp false).
    now destruct (binary_round_aux _ _ _ _ _ _) as [[]|[]| |[]].
Qed.

Lemma SFsub_swap (a b : spec_float) :
  SF64sub b a = SFopp (SF64sub a b) \/ SF64sub b a = SF64sub a b.
Proof.
  destruct a as [sa|sa| |sa ma ea], b as [sb|sb| |sb mb eb]; cbn;
    try (destruct sa, sb; cbn; auto; fail); try (destruct sa; cbn; auto; fail);
    try (destruct sb; cbn; auto; fail); auto.
  unfold SF64sub, SFsub.
  rewrite (Z.min_comm eb ea).
  set (X := cond_Zopp sa (Z.pos (shl_align ma ea (Z.min ea eb)).1)).
  set (Y := cond_Zopp sb (Z.pos (shl_align mb eb (Z.min ea eb)).1)).
  destruct (Z.eq_dec (X - Y)%Z 0%Z) as [E|E].
  - right. replace (Y - X)%Z with 0%Z by lia. now rewrite E.
  - left. replace (Y - X)%Z with (- (X - Y))%Z by lia. now apply binary_normalize_opp.
Qed.

(** The two differences of a pair are opposite, or equal (both [+0] or both NaN). *)
Lemma sub_swap (a b : float) : b - a = - (a - b) \/ b - a = a - b.
Proof.
  destruct (SFsub_swap (Prim2SF a) (Prim2SF b)) as [H|H]; [left|right];
    apply Prim2SF_inj; rewrite ?opp_spec, !sub_spec; exact H.
Qed.

Lemma not_neg_SF (v : float) : (v <? 0) = false <-> nonneg_SF (Prim2SF v).
Proof.
  rewrite FloatAxioms.ltb_spec. change (Prim2SF 0) with (S754_zero false).
  destruct (Prim2SF v) as [s|[]| |[] m e]; cbn; intuition discriminate.
Qed.

Lemma binary_round_aux_nonneg mx ex lx :
  nonneg_SF (binary_round_aux prec emax false mx ex lx).
Proof.
  unfold binary_round_aux.
  destruct (shr_fexp prec emax mx ex lx) as [mrs' e'].
  destruct (shr_fexp prec emax _ e' loc_Exact) as [mrs'' e''].
  destruct (shr_m mrs''); cbn; auto.
  destruct (Z.leb e'' (emax - prec)); cbn; auto.
Qed.

Lemma add_not_neg (a b : float) :
  (a <? 0) = false -> (b <? 0) = false -> (a + b <? 0) = false.
Proof.
  rewrite !not_neg_SF, add_spec.
  destruct (Prim2SF a) as [sa|[]| |[] ma ea], (Prim2SF b) as [sb|[]| |[] mb eb];
    cbn; try tauto.
  - destruct sa, sb; cbn; auto.
  - intros _ _. rewrite <- Pos2Z.inj_add. unfold binary_normalize, binary_round.
    destruct (shl_align (_ + _) _ _) as [mz ez]. apply binary_round_aux_nonneg.
Qed.

Lemma is_nan_SF (v : float) : is_nan v = false <-> Prim2SF v <> S754_nan.
Proof.
  unfold is_nan. rewrite FloatAxioms.eqb_spec.
  destruct (Prim2SF v) as [s|s| |s m e].
  - split; [discriminate|reflexivity].
  - split; [discriminate|]. now destruct s.
  - split; [discriminate|congruence].
  - unfold SFeqb. rewrite SFcompare_refl_finite. split; [discriminate|reflexivity].
Qed.

Lemma shr_1_nonneg mrs : (0 <= shr_m mrs)%Z -> (0 <= shr_m (shr_1 mrs))%Z.
Proof.
  destruct mrs as [m r s]. destruct m as [|[p|p|]|p]; cbn; lia.
Qed.

Lemma iter_pos_invariant {A : Type} (P : A -> Prop) (f : A -> A) :
  (forall a, P a -> P (f a)) -> forall n a, P a -> P (SpecFloat.iter_pos f n a).
Proof.
  intros Hf. induction n as [n IH|n IH|]; cbn; auto.
Qed.

Lemma shr_fexp_nonneg m e l :
  (0 <= m)%Z -> (0 <= shr_m (shr_fexp prec emax m e l).1)%Z.
Proof.
  intros Hm. unfold shr_fexp, shr.
  assert (H0 : (0 <= shr_m (shr_record_of_loc m l))%Z) by now destruct l as [|[]].
  destruct (fexp prec emax (Zdigits2 m + e) - e)%Z; cbn; auto.
  apply (iter_pos_invariant (fun mrs => (0 <= shr_m mrs)%Z)); auto using shr_1_nonneg.
Qed.

Lemma round_nearest_even_nonneg mx lx :
  (0 <= mx)%Z -> (0 <= round_nearest_even mx lx)%Z.
Proof.
  destruct lx as [|[]]; cbn; try lia. destruct (Z.even mx); lia.
Qed.

(** A rounded non-negative mantissa is a number. *)
Lemma binary_round_aux_number s mx ex lx :
  (0 <= mx)%Z -> binary_round_aux prec emax s mx ex lx <> S754_nan.
Proof.
  intros Hm. unfold binary_round_aux.
  pose proof (shr_fexp_nonneg mx ex lx Hm) as H1.
  destruct (shr_fexp prec emax mx ex lx) as [mrs' e']. cbn in H1.
  pose proof (shr_fexp_nonneg _ e' loc_Exact
                (round_nearest_even_nonneg _ (loc_of_shr_record mrs') H1)) as H2.
  destruct (shr_fexp prec emax _ e' loc_Exact) as [mrs'' e'']. cbn in H2.
  destruct (shr_m mrs''); [discriminate| |lia].
  destruct (Z.leb e'' (emax - prec)); discriminate.
Qed.

Lemma binary_normalize_number m e : binary_normalize prec emax m e false <> S754_nan.
Proof.
  destruct m as [|p|p]; cbn; [discriminate| |];
    unfold binary_round; destruct (shl_align _ _ _) as [mz ez];
    apply binary_round_aux_number; lia.
Qed.

(** The difference of two finite floats is a number. *)
Lemma sub_finite_number (a b : float) :
  is_finite a = true -> is_finite b = true -> is_nan (a - b) = false.
Proof.
  intros Ha Hb. apply is_nan_SF. rewrite sub_spec.
  destruct (is_finite_SF a Ha) as [[sa ->]|(sa & ma & ea & ->)],
           (is_finite_SF b Hb) as [[sb ->]|(sb & mb & eb & ->)]; cbn.
  - destruct sa, sb; discriminate.
  - discriminate.
  - discriminate.
  - apply binary_normalize_number.
Qed.

(** The sum of two numbers that are not negative is a number. *)
Lemma add_number (a b : float) :
  is_nan a = false -> (a <? 0) = false ->
  is_nan b = false -> (b <? 0) = false ->
  is_nan (a + b) = false.
Proof.
  rewrite !is_nan_SF, !not_neg_SF, add_spec.
  destruct (Prim2SF a) as [sa|[]| |[] ma ea], (Prim2SF b) as [sb|[]| |[] mb eb];
    cbn; try tauto; try discriminate.
  - destruct sa, sb; discriminate.
  - intros _ _ _ _. apply binary_normalize_number.
Qed.

Lemma mul_self_number (d : float) :
  is_nan d = false -> is_nan (d * d) = false /\ (d * d <? 0) = false.
Proof.
  rewrite !is_nan_SF, not_neg_SF, mul_spec.
  destruct (Prim2SF d) as [s|s| |s m e]; cbn; try tauto.
  - intros _. split; [discriminate|exact I].
  - intros _. split; [discriminate|]. now destruct s.
  - intros _. replace (xorb s s) with false by now destruct s.
    split; [apply binary_round_aux_number; lia|apply binary_round_aux_nonneg].
Qed.

Lemma sqrt_number (s : float) :
  is_nan s = false -> (s <? 0) = false -> is_nan (PrimFloat.sqrt s) = false.
Proof.
  rewrite !is_nan_SF, not_neg_SF, sqrt_spec.
  destruct (Prim2SF s) as [s0|[]| |[] m e]; cbn; try tauto; try discriminate.
  intros _ _. unfold SF64sqrt, SFsqrt, SFsqrt_core_binary.
  set (m' := match (e - 2 * _)%Z with Z.pos _ => _ | Z0 => _ | Z.neg _ => _ end).
  assert (Hm' : (0 <= m')%Z).
  { subst m'. destruct (e - 2 * _)%Z; try lia. apply Z.shiftl_nonneg. lia. }
  pose proof (Z.sqrtrem_spec m' Hm') as Hs.
  destruct (Z.sqrtrem m') as [q r].
  apply binary_round_aux_number. nia.
Qed.

End Float64.

(** ** [Pow_special] on squares *)

Section PowSpecial.

#[local] Open Scope float_scope.

Lemma eqb_finite_eq (v c : float) s m e :
  Prim2SF c = S754_finite s m e -> (v =? c) = true -> v = c.
Proof.
  intros Hc. rewrite FloatAxioms.eqb_spec, Hc. intros H.
  apply Prim2SF_inj. rewrite Hc.
  destruct (Prim2SF v) as [s'|s'| |s' m' e']; cbn in H; try discriminate.
  - destruct s; discriminate.
  - destruct s'; discriminate.
  - unfold SFeqb in H. cbn in H.
    destruct s', s; try discriminate;
      destruct (Z.compare_spec e' e) as [Ee| |]; try discriminate;
      destruct (Pos.compare_cont Eq m' m) eqn:Em; try discriminate;
      apply Pos.compare_eq in Em; now subst.
Qed.

Lemma mul_opp_opp (d : float) : (- d) * (- d) = d * d.
Proof.
  apply Prim2SF_inj. rewrite !mul_spec, opp_spec.
  destruct (Prim2SF d) as [[]|[]| |[] m e]; reflexivity.
Qed.

(** [Pow_special] squares as the multiplication does. *)
Lemma Pow_special_square (v : float) : Pow_special v 2 = v * v.
Proof.
  unfold Pow_special.
  change (2 =? 0) with false. change (2 =? 1) with false.
  change (is_nan 2) with false. change (is_infinity 2) with false.
  change (2 =? 0.5) with false. change (2 =? -0.5) with false.
  change (2 =? 2) with true. change (2 <? 0) with false.
  cbn [orb].
  destruct (v =? 1) eqn:E1.
  { apply (eqb_finite_eq v 1 false 4503599627370496 (-52) eq_refl) in E1.
    subst v. reflexivity. }
  rewrite orb_false_r.
  unfold is_nan, is_infinity, Pow_zero.
  rewrite !FloatAxioms.eqb_spec, abs_spec.
  change (Prim2SF 0) with (S754_zero false).
  change (Prim2SF infinity) with (S754_infinity false).
  change (Prim2SF neg_infinity) with (S754_infinity true).
  change (isOddInt 2) with false. change (isOddInt (- (2))) with false.
  change (- (2) <? 0) with true. change (2 <? 0) with false.
  rewrite !andb_false_r.
  destruct (Prim2SF v) as [s|s| |s m e] eqn:Ev.
  - cbn. apply Prim2SF_inj. rewrite mul_spec, Ev. now destruct s.
  - destruct s; cbn; apply Prim2SF_inj; rewrite mul_spec, Ev; reflexivity.
  - cbn. apply Prim2SF_inj. rewrite mul_spec, Ev. reflexivity.
  - unfold SFeqb. rewrite SFcompare_refl_finite. cbn. now destruct s.
Qed.

Lemma Pow_special_even (d : float) : Pow_special (- d) 2 = Pow_special d 2.
Proof. rewrite !Pow_special_square. apply mul_opp_opp. Qed.

Lemma Pow_special_square_number (d : float) :
  is_nan d = false ->
  is_nan (Pow_special d 2) = false /\ (Pow_special d 2 <? 0) = false.
Proof. rewrite Pow_special_square. apply mul_self_number. Qed.

(** [Pow_special] takes the root of a number that is not negative. *)
Lemma Pow_special_root_number (s : float) :
  is_nan s = false -> (s <? 0) = false -> is_nan (Pow_special s 0.5) = false.
Proof.
  intros Hnan Hneg. unfold Pow_special, Pow_zero.
  change (0.5 =? 0) with false. change (0.5 =? 1) with false.
  change (is_nan 0.5) with false. change (is_infinity 0.5) with false.
  change (0.5 =? 0.5) with true. change (0.5 <? 0) with false.
  change (- (0.5) <? 0) with true.
  change (isOddInt 0.5) with false. change (isOddInt (- (0.5))) with false.
  rewrite Hnan, !andb_false_r. cbn [orb].
  destruct (s =? 1); [reflexivity|].
  destruct (s =? 0); [reflexivity|].
  destruct (is_infinity s).
  - now destruct (s =? neg_infinity).
  - now apply sqrt_number.
Qed.

End PowSpecial.

(** ** Panics and slices *)

Section Slices.

Context {A B : Type}.

Lemma bind_Ok (m : result A) (f : A -> result B) (b : B) :
  m ≫= f = Ok b <-> exists a, m = Ok a /\ f a = Ok b.
Proof.
  destruct m as [a| |]; cbn; split; try discriminate; eauto.
  - intros (a' & [= <-] & H). exact H.
  - intros (a' & [=] & _).
  - intros (a' & [=] & _).
Qed.

Lemma index_Ok (s : list A) (i : nat) (a : A) : index s i = Ok a <-> s !! i = Some a.
Proof. unfold index. destruct (s !! i); split; congruence. Qed.

Lemma index_lt (s : list A) (i : nat) : i < length s -> exists a, index s i = Ok a.
Proof.
  intros [a Ha]%lookup_lt_is_Some_2. exists a. now apply index_Ok.
Qed.

Lemma store_Ok (s s' : list A) (i : nat) (v : A) :
  store s i v = Ok s' <-> i < length s /\ s' = <[i := v]> s.
Proof.
  unfold store. destruct (Nat.ltb_spec i (length s)); split.
  - intros [= <-]. auto.
  - intros [_ ->]. reflexivity.
  - discriminate.
  - lia.
Qed.

End Slices.

Lemma modulo_Ok (a n r : nat) : modulo a n = Ok r <-> n <> 0 /\ r = a mod n.
Proof.
  unfold modulo. destruct (Nat.eqb_spec n 0); split.
  - discriminate.
  - tauto.
  - intros [= <-]. auto.
  - intros [_ ->]. reflexivity.
Qed.

(** Inversion of a successful run, one bind at a time. *)
Ltac ok_inv H :=
  repeat match type of H with
  | (_ ≫= _) = Ok _ =>
      let a := fresh "a" in let Ha := fresh "Ha" in
      apply bind_Ok in H; destruct H as (a & Ha & H)
  | (let '(_, _) := ?p in _) = Ok _ => destruct p
  | (match ?p with (_, _) => _ end) = Ok _ => destruct p
  end.

Section Tours.

Variable Pow : float -> float -> float.
Variable cfg : config.
Variable numCities : nat.
Variables tauMatrix adjMatrix : matrix.

#[local] Abbreviation scan := (scan Pow cfg numCities tauMatrix adjMatrix).
#[local] Abbreviation goToNewCity := (goToNewCity Pow cfg numCities tauMatrix adjMatrix).
#[local] Abbreviation moveAnt := (moveAnt Pow cfg numCities tauMatrix adjMatrix).
#[local] Abbreviation moveAnts := (moveAnts Pow cfg numCities tauMatrix adjMatrix).
#[local] Abbreviation visiting := (visiting numCities).
#[local] Abbreviation walked := (walked numCities adjMatrix).

(** The scan only stops on a city that is not the current one and whose
    tabu entry is 0. *)
Lemma scan_Ok ant from denom fuel to src to' src' :
  scan ant from denom fuel to src = Ok (to', src') ->
  tabulist ant !! to' = Some 0 /\ from <> to'.
Proof.
  revert to src. induction fuel as [|fuel IH]; intros to src H; [discriminate|].
  simpl in H.
  destruct (Nat.eqb_spec from to) as [E|E]; simpl in H.
  - ok_inv H. eauto.
  - ok_inv H. destruct (Nat.eqb_spec a 0) as [E0|E0].
    + ok_inv H. destruct (float64_at src (calls src) <? _)%float.
      * injection H as <- <-. apply index_Ok in Ha. subst a. auto.
      * ok_inv H. eauto.
    + ok_inv H. eauto.
Qed.

Lemma visiting_new c : visiting 0 (new_ant numCities c).
Proof.
  unfold visiting, new_ant; cbn. rewrite !length_replicate.
  repeat split; auto using NoDup_nil_2. intros c' []%elem_of_nil.
Qed.

(** What a call of [goToNewCity] that returns has done. *)
Lemma goToNewCity_Ok fuel ant src ant' src' :
  goToNewCity fuel ant src = Ok (ant', src') ->
  exists denom to edge len,
    denominator Pow cfg numCities tauMatrix adjMatrix ant (currentCity ant) = Ok denom /\
    scan ant (currentCity ant) denom fuel 0 src = Ok (to, src') /\
    to < length (tabulist ant) /\ tourIndex ant < length (tour ant) /\
    index2 adjMatrix (currentCity ant) to = Ok edge /\
    (if (S (tourIndex ant) =? numCities)%nat
     then exists last first closing,
         <[tourIndex ant := to]> (tour ant) !! (numCities - 1) = Some last /\
         <[tourIndex ant := to]> (tour ant) !! 0 = Some first /\
         index2 adjMatrix last first = Ok closing /\
         len = (tourlength ant + edge + closing)%float
     else len = (tourlength ant + edge)%float) /\
    ant' = mkAnt (<[to := 1]> (tabulist ant)) to to
                 (<[tourIndex ant := to]> (tour ant)) (S (tourIndex ant)) len.
Proof.
  intros H. unfold goToNewCity in H. ok_inv H.
  injection H as <- <-.
  apply store_Ok in Ha1 as [Hlt ->]. apply store_Ok in Ha2 as [Hlt' ->].
  eexists _, _, _, _. repeat split; eauto.
  destruct (S (tourIndex ant) =? numCities)%nat.
  - ok_inv Ha4. injection Ha4 as <-.
    apply index_Ok in Ha1, Ha2. eauto 10.
  - now injection Ha4 as <-.
Qed.

Lemma goToNewCity_visiting fuel k ant src ant' src' :
  visiting k ant ->
  goToNewCity fuel ant src = Ok (ant', src') ->
  visiting (S k) ant'.
Proof.
  intros (Hk & Htour & Htabu & Hnd & Hin) H.
  apply goToNewCity_Ok in H
    as (denom & to & edge & len & _ & [Hto _]%scan_Ok & Hlt & Hlt' & _ & _ & ->).
  rewrite Hk in *.
  assert (Htake : take (S k) (<[k:=to]> (tour ant)) = take k (tour ant) ++ [to]).
  { rewrite (take_S_r _ _ to) by now apply list_lookup_insert_eq.
    now rewrite take_insert_ge by lia. }
  unfold visiting; cbn. rewrite !length_insert, Htake.
  repeat split; auto.
  - apply NoDup_app. repeat split; auto using NoDup_singleton.
    intros c Hc ->%list_elem_of_singleton. apply Hin in Hc. congruence.
  - intros c [Hc| ->%list_elem_of_singleton]%elem_of_app.
    + destruct (decide (to = c)) as [->|Hne].
      * now apply list_lookup_insert_eq.
      * rewrite list_lookup_insert_ne by done. auto.
    + now apply list_lookup_insert_eq.
Qed.

Lemma moveAnt_visiting fuel steps k ant src ant' src' :
  visiting k ant ->
  moveAnt fuel steps ant src = Ok (ant', src') ->
  visiting (steps + k) ant'.
Proof.
  revert k ant src. induction steps as [|steps IH]; intros k ant src Hv H.
  - injection H as <- <-. exact Hv.
  - simpl in H. ok_inv H.
    replace (S steps + k) with (steps + S k) by lia.
    eapply IH; [|exact H]. eapply goToNewCity_visiting; eauto.
Qed.

Lemma visiting_all ant : visiting numCities ant -> tour ant ≡ₚ seq 0 numCities.
Proof.
  intros (Hk & Htour & Htabu & Hnd & Hin).
  rewrite take_ge in Hnd, Hin by lia.
  apply submseteq_length_Permutation.
  - apply NoDup_submseteq; [exact Hnd|].
    intros c Hc. apply elem_of_seq. split; [lia|].
    apply Hin, lookup_lt_Some in Hc. lia.
  - rewrite length_seq. lia.
Qed.

Lemma walk_snoc adj acc l a b :
  walk adj acc (l ++ [a; b])
  = v ← walk adj acc (l ++ [a]); e ← index2 adj a b; Ok (v + e)%float.
Proof.
  revert acc. induction l as [|c [|d l] IH]; intros acc.
  - cbn. now destruct (index2 adj a b).
  - cbn. destruct (index2 adj c a); cbn; try reflexivity.
  - change (walk adj acc ((c :: d :: l) ++ [a; b]))
      with (e ← index2 adj c d; walk adj (acc + e)%float ((d :: l) ++ [a; b])).
    change (walk adj acc ((c :: d :: l) ++ [a]))
      with (e ← index2 adj c d; walk adj (acc + e)%float ((d :: l) ++ [a])).
    destruct (index2 adj c d); cbn [mbind result_bind]; try reflexivity. apply IH.
Qed.

Lemma goToNewCity_walked fuel c k ant src ant' src' :
  k < numCities -> visiting k ant -> walked c k ant ->
  goToNewCity fuel ant src = Ok (ant', src') ->
  walked c (S k) ant'.
Proof.
  intros Hlt (Hk & Htour & Htabu & _ & _) Hw H.
  unfold walked in Hw. destruct (Nat.eqb_spec k numCities) as [?|_]; [lia|].
  destruct Hw as [Hw Hlast].
  apply goToNewCity_Ok in H
    as (denom & to & edge & len & _ & _ & _ & _ & Hedge & Hlen & ->).
  rewrite Hk in *.
  assert (Htake : take (S k) (<[k:=to]> (tour ant)) = take k (tour ant) ++ [to]).
  { rewrite (take_S_r _ _ to) by (apply list_lookup_insert_eq; lia).
    now rewrite take_insert_ge by lia. }
  apply last_Some in Hlast as [l Hl].
  assert (Hstep : walk adjMatrix 0%float (c :: take k (tour ant) ++ [to])
                  = Ok (tourlength ant + edge)%float).
  { rewrite app_comm_cons, Hl, <- app_assoc. cbn [app].
    rewrite walk_snoc, <- Hl, Hw. cbn. now rewrite Hedge. }
  unfold walked; cbn [tour tourlength currentCity].
  destruct (Nat.eqb_spec (S k) numCities) as [E|E].
  - destruct Hlen as (lst & first & closing & Hlst & Hfirst & Hclosing & ->).
    assert (Hfull : <[k:=to]> (tour ant) = take k (tour ant) ++ [to]).
    { rewrite <- Htake. symmetry. apply take_ge. rewrite length_insert. lia. }
    replace (numCities - 1) with k in Hlst by lia.
    rewrite list_lookup_insert_eq in Hlst by lia. injection Hlst as <-.
    assert (H1 : take 1 (<[k:=to]> (tour ant)) = [first]).
    { destruct (<[k:=to]> (tour ant)) as [|f r]; [discriminate|].
      cbn in Hfirst. injection Hfirst as ->. reflexivity. }
    rewrite H1, Hfull, <- app_assoc. cbn [app].
    rewrite app_comm_cons, walk_snoc, <- app_comm_cons, Hstep. cbn.
    now rewrite Hclosing.
  - subst len. rewrite Htake. split; [exact Hstep|].
    rewrite app_comm_cons. apply last_snoc.
Qed.

Lemma walked_new c : walked c 0 (new_ant numCities c).
Proof.
  unfold walked. destruct (Nat.eqb_spec 0 numCities) as [<-|_]; cbn; auto.
Qed.

Lemma moveAnt_walked fuel c steps k ant src ant' src' :
  k + steps = numCities -> visiting k ant -> walked c k ant ->
  moveAnt fuel steps ant src = Ok (ant', src') ->
  walked c numCities ant'.
Proof.
  revert k ant src. induction steps as [|steps IH]; intros k ant src Hk Hv Hw H.
  - injection H as <- <-. assert (k = numCities) as -> by lia. exact Hw.
  - simpl in H. ok_inv H.
    eapply (IH (S k)); [lia| | |exact H].
    + eapply goToNewCity_visiting; eauto.
    + eapply goToNewCity_walked; eauto. lia.
Qed.

(** The length [moveAnts] leaves in an ant that [initAnts] placed on city [c]
    is the cost of the walk from [c] through the whole tour and back to the
    first city of the tour: the edge from [c] to the first city of the tour
    is counted, though [c] is a later city of the tour. *)
Lemma moveAnt_tourlength fuel c src ant src' :
  moveAnt fuel numCities (new_ant numCities c) src = Ok (ant, src') ->
  walk adjMatrix 0%float (c :: tour ant ++ take 1 (tour ant)) = Ok (tourlength ant).
Proof.
  intros H.
  pose proof (moveAnt_walked fuel c numCities 0 _ _ _ _ eq_refl
                (visiting_new c) (walked_new c) H) as Hw.
  unfold walked in Hw. now rewrite Nat.eqb_refl in Hw.
Qed.

End Tours.

(** Evaluation of a closed run. *)
Ltac run :=
  match goal with
  | |- ?l = _ => let v := eval vm_compute in l in
                 transitivity v; [vm_compute; reflexivity | reflexivity]
  end.

Section Population.

Variable Pow : float -> float -> float.
Variable cfg : config.
Variable numCities : nat.
Variables tauMatrix adjMatrix : matrix.

Lemma initAnts_loop_new n src ants src' :
  initAnts_loop n numCities src = Ok (ants, src') ->
  Forall (fun ant => exists c, ant = new_ant numCities c) ants.
Proof.
  revert src ants src'. induction n as [|n IH]; intros src ants src' H.
  - injection H as <- <-. constructor.
  - simpl in H. ok_inv H. injection H as <- <-.
    constructor; eauto.
Qed.

Lemma moveAnts_Forall (P Q : ant_t -> Prop) fuel :
  (forall ant src ant' src',
      P ant -> moveAnt Pow cfg numCities tauMatrix adjMatrix fuel numCities ant src
               = Ok (ant', src') -> Q ant') ->
  forall ants src ants' src',
    Forall P ants ->
    moveAnts Pow cfg numCities tauMatrix adjMatrix fuel ants src = Ok (ants', src') ->
    Forall Q ants'.
Proof.
  intros HPQ ants. induction ants as [|ant ants IH]; intros src ants' src' HP H.
  - injection H as <- <-. constructor.
  - simpl in H. ok_inv H. injection H as <- <-.
    inversion HP; subst. constructor; eauto.
Qed.

(** C9. Every ant that [initAnts] set up and [moveAnts] moved over
    [numCities] cities carries a tour that is a permutation of the city
    indices [0 .. numCities - 1]. *)
Theorem tours_are_permutations fuel src ants0 src1 ants src2 :
  initAnts cfg numCities src = Ok (ants0, src1) ->
  moveAnts Pow cfg numCities tauMatrix adjMatrix fuel ants0 src1 = Ok (ants, src2) ->
  Forall (fun ant => tour ant ≡ₚ seq 0 numCities) ants.
Proof.
  intros Hinit Hmove. apply initAnts_loop_new in Hinit.
  eapply moveAnts_Forall; [|exact Hinit|exact Hmove].
  intros ant s ant' s' [c ->] H.
  apply visiting_all.
  pose proof (moveAnt_visiting _ _ _ _ _ _ _ _ _ _ _ _ (visiting_new numCities c) H) as Hv.
  now rewrite Nat.add_0_r in Hv.
Qed.

End Population.

Lemma tours_are_permutations_witness :
  exists ants0 src1 ants src2,
    initAnts linear 4 (script [Intn 2; Intn 5]) = Ok (ants0, src1) /\
    moveAnts Pow_special linear 4 (initTrail 4) (initGraph Pow_special four_cities)
             20 ants0 src1 = Ok (ants, src2) /\
    length ants = 10 /\
    Forall (fun ant => tour ant ≡ₚ seq 0 4) ants.
Proof.
  eexists _, _, _, _. split; [run|]. split; [run|]. split; [reflexivity|].
  eapply (tours_are_permutations Pow_special linear 4 (initTrail 4)
            (initGraph Pow_special four_cities) 20 (script [Intn 2; Intn 5])); run.
Defined.

(** ** The length of a tour *)

(** C3. Two cities, the ant placed on city 0.  Its tour is 1, 0; the
    consecutive edge 1-0 and the closing edge 0-1 cost [d] each, and the
    length the ant carries is [d + d + d]: the edge from the starting city
    to the first city of the tour is in it as well. *)
Theorem tourlength_counts_start_edge :
  exists ant src' d,
    moveAnt Pow_special linear 2 (initTrail 2) (initGraph Pow_special two_cities)
            10 2 (new_ant 2 0) (script []) = Ok (ant, src') /\
    tour ant = [1; 0] /\
    index2 (initGraph Pow_special two_cities) 1 0 = Ok d /\
    index2 (initGraph Pow_special two_cities) 0 1 = Ok d /\
    tourlength ant = (0 + d + d + d)%float /\
    (tourlength ant =? 0 + d + d)%float = false.
Proof.
  eexists _, _, _. split; [run|]. split; [reflexivity|]. split; [run|].
  split; [run|]. split; vm_compute; reflexivity.
Qed.

(** ** The cost of an edge *)

(** C4. [calEdge] reads the second coordinate only: it is 0 between (0,0)
    and (1,0), whose distance is 1, and the square root of 32 between (0,0)
    and (3,4), whose distance is 5. *)
Theorem calEdge_reads_y_only :
  calEdge Pow_special (mkCity 0 0) (mkCity 1 0) = 0%float /\
  calEdge Pow_special (mkCity 0 0) (mkCity 3 4) = PrimFloat.sqrt 32 /\
  (calEdge Pow_special (mkCity 0 0) (mkCity 3 4) =? 5)%float = false.
Proof. repeat split; vm_compute; reflexivity. Qed.

(** Whatever [math.Pow] is, the first coordinates do not matter. *)
Lemma calEdge_any_x Pow x1 x1' x2 x2' y1 y2 :
  calEdge Pow (mkCity x1 y1) (mkCity x2 y2) = calEdge Pow (mkCity x1' y1) (mkCity x2' y2).
Proof. reflexivity. Qed.

(** ** The statistics of a round *)

(** The sum of the lengths goes over [times], not over the number of ants. *)
Lemma calculateAvg_eq cfg ant ants :
  calculateAvg cfg (ant :: ants)
  = Ok (fold_left (fun total a => total + tourlength a) (ant :: ants) 0
        / float64_of_int (times cfg))%float.
Proof. reflexivity. Qed.

(** C7. Two ants ([numAnts] is 2, [times] is 10) on two cities: both tours
    have length [l], and the mean recorded for the round is [(l + l) / 10],
    not [(l + l) / 2]. *)
Theorem calculateAvg_divides_by_times :
  exists ants0 src1 ants src2 l,
    initAnts two_ants 2 (script []) = Ok (ants0, src1) /\
    moveAnts Pow_special two_ants 2 (initTrail 2) (initGraph Pow_special two_cities)
             10 ants0 src1 = Ok (ants, src2) /\
    map tourlength ants = [l; l] /\
    calculateAvg two_ants ants = Ok ((0 + l + l) / 10)%float /\
    ((0 + l + l) / 10 =? (0 + l + l) / 2)%float = false.
Proof.
  eexists _, _, _, _, _. split; [run|]. split; [run|]. split; [reflexivity|].
  split; vm_compute; reflexivity.
Qed.

(** C6. One ant, two rounds.  The ant of the first round builds the tour
    2, 1, 3, 0, the ant of the second round the strictly shorter tour
    1, 2, 3, 0, and the experiment reports 2, 1, 3, 0 as its best tour. *)
Theorem besttour_is_not_the_best :
  exists r tau src' a b,
    experiment Pow_special two_rounds 4 (initGraph Pow_special four_cities) 20
               (initTrail 4) two_rounds_script = Ok (r, tau, src') /\
    ants_moved r = [a; b] /\
    tour a = [2; 1; 3; 0] /\ tour b = [1; 2; 3; 0] /\
    (tourlength b <? tourlength a)%float = true /\
    optimal_path r = Some [2; 1; 3; 0].
Proof.
  eexists _, _, _, _, _. split; [run|]. split; [reflexivity|].
  repeat split; vm_compute; reflexivity.
Qed.

(** ** The pheromone matrix across experiments *)

(** What [initTrail] builds: the base value 1 off the diagonal, 0 on it. *)
Lemma initTrail_entries n i j :
  i < n -> j < n ->
  index2 (initTrail n) i j = Ok (if (i =? j)%nat then 0%float else 1%float).
Proof.
  intros Hi Hj. unfold index2, index, initTrail.
  rewrite list_lookup_fmap, lookup_seq_lt by lia. cbn.
  rewrite list_lookup_fmap, lookup_seq_lt by lia. cbn.
  now destruct (i =? j)%nat.
Qed.

Section Experiments.

Variable Pow : float -> float -> float.
Variable cfg : config.
Variable numCities : nat.
Variable adjMatrix : matrix.

Lemma experiment_Ok fuel tau src r tau' src' :
  experiment Pow cfg numCities adjMatrix fuel tau src = Ok (r, tau', src') ->
  tau_begin r = tau /\ tau' = evaporatePheromone cfg (tau_rounds r).
Proof.
  unfold experiment. intros H. ok_inv H. injection H as <- <- _. auto.
Qed.

Lemma experiments_chain fuel n tau src reports :
  experiments Pow cfg numCities adjMatrix fuel n tau src = Ok reports ->
  length reports = n /\
  (forall r, reports !! 0 = Some r -> tau_begin r = tau) /\
  (forall k r r', reports !! k = Some r -> reports !! S k = Some r' ->
                  tau_begin r' = evaporatePheromone cfg (tau_rounds r)).
Proof.
  revert tau src reports. induction n as [|n IH]; intros tau src reports H.
  - injection H as <-. repeat split; intros; discriminate.
  - simpl in H. ok_inv H. injection H as <-.
    apply experiment_Ok in Ha as [Hb ->]. apply IH in Ha0 as (Hlen & IH0 & IHS).
    split; [cbn; now rewrite Hlen|]. split.
    + intros r' [= <-]. exact Hb.
    + intros [|k] r' r'' Hk HSk.
      * injection Hk as <-. now apply IH0.
      * now apply (IHS k).
Qed.

End Experiments.

(** C1, as the program has it.  [initTrail] runs once, before the first
    experiment.  A run that ends reports [times] experiments; the first of
    them begins with the initialized matrix, and every later one begins with
    the matrix the experiment before it left, that is the matrix after its
    rounds, evaporated once. *)
Theorem main_seeds_once Pow cfg cities fuel src reports :
  main Pow cfg cities fuel src = Ok reports ->
  length reports = times cfg /\
  (forall r, reports !! 0 = Some r -> tau_begin r = initTrail (length cities)) /\
  (forall k r r', reports !! k = Some r -> reports !! S k = Some r' ->
                  tau_begin r' = evaporatePheromone cfg (tau_rounds r)).
Proof.
  unfold main. intros H.
  exact (experiments_chain Pow cfg (length cities) (initGraph Pow cities)
           fuel (times cfg) (initTrail (length cities)) src reports H).
Qed.

Lemma main_seeds_once_witness :
  exists reports,
    main Pow_special two_experiments two_cities 10 (script []) = Ok reports /\
    length reports = times two_experiments /\
    (forall r, reports !! 0 = Some r -> tau_begin r = initTrail (length two_cities)) /\
    (forall k r r', reports !! k = Some r -> reports !! S k = Some r' ->
                    tau_begin r' = evaporatePheromone two_experiments (tau_rounds r)).
Proof.
  eexists. split; [run|].
  apply (main_seeds_once Pow_special two_experiments two_cities 10 (script [])). run.
Defined.

(** C1 as stated fails: the second experiment of this run begins with
    pheromone [v] on the edge 0-1, and [v] is not the base value 1. *)
Lemma second_experiment_not_reseeded :
  exists r1 r2 v,
    main Pow_special two_experiments two_cities 10 (script []) = Ok [r1; r2] /\
    index2 (tau_begin r2) 0 1 = Ok v /\
    (v =? 1)%float = false.
Proof.
  eexists _, _, _. split; [run|]. split; [run|]. vm_compute. reflexivity.
Qed.

(** ** Selection with a zero denominator *)

Lemma index2_square n m i j :
  square n m -> i < n -> j < n -> exists v, index2 m i j = Ok v.
Proof.
  intros [Hlen Hrows] Hi Hj.
  destruct (lookup_lt_is_Some_2 m i) as [row Hrow]; [lia|].
  rewrite Forall_lookup in Hrows. specialize (Hrows _ _ Hrow).
  destruct (lookup_lt_is_Some_2 row j) as [v Hv]; [lia|].
  exists v. unfold index2, index. rewrite Hrow. cbn. now rewrite Hv.
Qed.

Section ZeroDenominator.

Variable Pow : float -> float -> float.
Variable cfg : config.
Variable numCities : nat.
Variables tauMatrix adjMatrix : matrix.
Variable ant : ant_t.
Variable z : float.

Hypothesis some_city : 0 < numCities.
Hypothesis tabu_length : length (tabulist ant) = numCities.
Hypothesis current : currentCity ant < numCities.
Hypothesis tau_square : square numCities tauMatrix.
Hypothesis adj_square : square numCities adjMatrix.
Hypothesis z_zero : (z =? 0)%float = true.
Hypothesis scores_zero :
  forall to t a,
    to <> currentCity ant -> tabulist ant !! to = Some 0 ->
    index2 tauMatrix (currentCity ant) to = Ok t ->
    index2 adjMatrix (currentCity ant) to = Ok a ->
    (desirability Pow cfg t a =? 0)%float = true.

(** No draw is below NaN: the scan goes round and round. *)
Lemma scan_zero_scores fuel to src :
  to < numCities ->
  scan Pow cfg numCities tauMatrix adjMatrix ant (currentCity ant) z fuel to src = Timeout.
Proof.
  revert to src. induction fuel as [|fuel IH]; intros to src Hto; [reflexivity|].
  assert (Hnext : modulo (to + 1) numCities = Ok ((to + 1) mod numCities)).
  { apply modulo_Ok. split; [lia|reflexivity]. }
  assert (Hlt : (to + 1) mod numCities < numCities) by (apply Nat.mod_upper_bound; lia).
  simpl. rewrite Hnext.
  destruct (Nat.eqb_spec (currentCity ant) to) as [E|E]; cbn; [now apply IH|].
  destruct (index_lt (tabulist ant) to) as [tb Htb]; [lia|].
  rewrite Htb. cbn.
  destruct (Nat.eqb_spec tb 0) as [->|_]; [|now apply IH].
  destruct (index2_square _ _ (currentCity ant) to tau_square) as [t Ht]; [lia..|].
  destruct (index2_square _ _ (currentCity ant) to adj_square) as [a Ha]; [lia..|].
  rewrite Ht, Ha. cbn.
  rewrite (div_zero_zero _ z), ltb_nan_r; [now apply IH| |exact z_zero].
  apply (scores_zero to t a); auto. now apply index_Ok.
Qed.

End ZeroDenominator.

(** C2, as the program has it.  [goToNewCity] has no case for a zero
    denominator: when the denominator is 0 and every remaining city has
    desirability 0, each probability is 0/0, no draw is below it, and the
    call does not return, whatever the draws and however long it runs. *)
Theorem zero_denominator_never_selects Pow cfg numCities tauMatrix adjMatrix ant z fuel src :
  0 < numCities ->
  length (tabulist ant) = numCities ->
  currentCity ant < numCities ->
  square numCities tauMatrix ->
  square numCities adjMatrix ->
  denominator Pow cfg numCities tauMatrix adjMatrix ant (currentCity ant) = Ok z ->
  (z =? 0)%float = true ->
  (forall to t a,
      to <> currentCity ant -> tabulist ant !! to = Some 0 ->
      index2 tauMatrix (currentCity ant) to = Ok t ->
      index2 adjMatrix (currentCity ant) to = Ok a ->
      (desirability Pow cfg t a =? 0)%float = true) ->
  goToNewCity Pow cfg numCities tauMatrix adjMatrix fuel ant src = Timeout.
Proof.
  intros HN Htabu Hcur Htau Hadj Hz Hz0 Hscores.
  unfold goToNewCity. rewrite Hz. cbn.
  now rewrite (scan_zero_scores Pow cfg numCities tauMatrix adjMatrix ant z).
Qed.

Lemma far_cities_scores to t a :
  to <> currentCity (new_ant 2 0) -> tabulist (new_ant 2 0) !! to = Some 0 ->
  index2 (initTrail 2) (currentCity (new_ant 2 0)) to = Ok t ->
  index2 (initGraph Pow_special far_cities) (currentCity (new_ant 2 0)) to = Ok a ->
  (desirability Pow_special defaults t a =? 0)%float = true.
Proof.
  destruct to as [|[|to]]; cbn; intros Hne Htabu Ht Ha; try done.
  vm_compute in Ht, Ha. injection Ht as <-. injection Ha as <-.
  vm_compute. reflexivity.
Qed.

Lemma square_2 a b c d : square 2 [[a; b]; [c; d]].
Proof. split; [reflexivity|]. repeat constructor. Qed.

Lemma zero_denominator_never_selects_witness :
  denominator Pow_special defaults 2 (initTrail 2) (initGraph Pow_special far_cities)
              (new_ant 2 0) 0 = Ok 0%float /\
  goToNewCity Pow_special defaults 2 (initTrail 2) (initGraph Pow_special far_cities)
              1000 (new_ant 2 0) (script []) = Timeout.
Proof.
  split; [vm_compute; reflexivity|].
  apply (zero_denominator_never_selects Pow_special defaults 2 (initTrail 2)
           (initGraph Pow_special far_cities) (new_ant 2 0) 0%float 1000 (script [])).
  - lia.
  - reflexivity.
  - cbn. lia.
  - apply square_2.
  - apply square_2.
  - vm_compute. reflexivity.
  - reflexivity.
  - exact far_cities_scores.
Defined.

(** C2 as stated fails: between these two cities the denominator is 0, and
    no source of random numbers and no running time make the selection
    return. *)
Lemma zero_denominator_no_fallback :
  denominator Pow_special defaults 2 (initTrail 2) (initGraph Pow_special far_cities)
              (new_ant 2 0) 0 = Ok 0%float /\
  ~ exists fuel src r,
      goToNewCity Pow_special defaults 2 (initTrail 2) (initGraph Pow_special far_cities)
                  fuel (new_ant 2 0) src = Ok r.
Proof.
  split; [vm_compute; reflexivity|].
  intros (fuel & src & r & H).
  unfold goToNewCity in H.
  change (denominator _ _ _ _ _ _ _) with (Ok 0%float : result float) in H.
  cbn in H.
  rewrite (scan_zero_scores Pow_special defaults 2 (initTrail 2)
             (initGraph Pow_special far_cities) (new_ant 2 0) 0%float) in H;
    try discriminate; try (cbn; lia); try apply square_2; try reflexivity.
  exact far_cities_scores.
Qed.

(** ** Evaporation and intensification *)

Lemma index2_map (f : float -> float) (m : matrix) i j t :
  index2 m i j = Ok t -> index2 (map (map f) m) i j = Ok (f t).
Proof.
  unfold index2, index. rewrite !list_lookup_fmap.
  destruct (m !! i) as [row|]; cbn; [|discriminate].
  rewrite list_lookup_fmap. destruct (row !! j); cbn; congruence.
Qed.

(** The clamp leaves nothing below zero. *)
Lemma evaporate_entry_not_neg cfg t : (evaporate_entry cfg t <? 0)%float = false.
Proof.
  unfold evaporate_entry.
  destruct (t * (1 - rho cfg) <? 0)%float eqn:E; [reflexivity|exact E].
Qed.

(** C5, as the program has it.  With [rho] equal to 1 an evaporation leaves
    0, not the base value, in every entry that held a number: the clamp
    only catches results strictly below zero. *)
Theorem full_evaporation_gives_zero cfg tau i j t :
  rho cfg = 1%float ->
  index2 tau i j = Ok t ->
  is_finite t = true ->
  exists t', index2 (evaporatePheromone cfg tau) i j = Ok t' /\ (t' =? 0)%float = true.
Proof.
  intros Hrho Ht Hfin.
  exists (evaporate_entry cfg t). split; [now apply index2_map|].
  unfold evaporate_entry. rewrite Hrho.
  change (1 - 1)%float with 0%float.
  destruct (mul_zero_r t Hfin) as [s Hs].
  rewrite (SF_zero_not_neg _ s Hs). exact (SF_zero_eqb _ s Hs).
Qed.

Lemma full_evaporation_gives_zero_witness :
  index2 (initTrail 3) 0 2 = Ok 1%float /\
  exists t', index2 (evaporatePheromone full_evaporation (initTrail 3)) 0 2 = Ok t' /\
             (t' =? 0)%float = true.
Proof.
  split; [reflexivity|].
  apply (full_evaporation_gives_zero full_evaporation (initTrail 3) 0 2 1%float);
    reflexivity.
Defined.

(** C5 as stated fails: after one evaporation with [rho] equal to 1 the
    entries of an initialized matrix are 0, not the base value 1. *)
Lemma full_evaporation_not_base :
  evaporatePheromone full_evaporation (initTrail 2) = [[0; 0]; [0; 0]]%float /\
  (0 =? 1)%float = false.
Proof. split; vm_compute; reflexivity. Qed.

Lemma not_negative_index2 m i j v :
  not_negative m -> index2 m i j = Ok v -> (v <? 0)%float = false.
Proof.
  unfold index2. intros Hm H. ok_inv H. apply index_Ok in Ha, H.
  unfold not_negative in Hm.
  rewrite Forall_lookup in Hm. specialize (Hm _ _ Ha).
  rewrite Forall_lookup in Hm. exact (Hm _ _ H).
Qed.

Lemma not_negative_store2 m i j v m' :
  not_negative m -> (v <? 0)%float = false -> store2 m i j v = Ok m' ->
  not_negative m'.
Proof.
  unfold store2. intros Hm Hv H. ok_inv H.
  apply index_Ok in Ha. apply store_Ok in Ha0 as [_ ->]. apply store_Ok in H as [_ ->].
  apply Forall_insert; [exact Hm|].
  apply Forall_insert; [|exact Hv].
  unfold not_negative in Hm. rewrite Forall_lookup in Hm. exact (Hm _ _ Ha).
Qed.

Lemma not_negative_initTrail n : not_negative (initTrail n).
Proof.
  unfold not_negative, initTrail.
  apply Forall_fmap, Forall_forall. intros i _.
  apply Forall_fmap, Forall_forall. intros j _. cbn.
  destruct (negb (i =? j)%nat); reflexivity.
Qed.

Lemma not_negative_evaporate cfg m : not_negative (evaporatePheromone cfg m).
Proof.
  unfold not_negative, evaporatePheromone.
  apply Forall_fmap, Forall_forall. intros row _.
  apply Forall_fmap, Forall_forall. intros t _. apply evaporate_entry_not_neg.
Qed.

Lemma foldM_invariant {A B : Type} (P : B -> Prop) (f : B -> A -> result B) l :
  (forall b a b', a ∈ l -> P b -> f b a = Ok b' -> P b') ->
  forall b b', P b -> foldM f b l = Ok b' -> P b'.
Proof.
  induction l as [|a l IH]; intros Hf b b' Hb H.
  - now injection H as <-.
  - simpl in H. ok_inv H. eapply IH; [|eapply Hf|exact H]; eauto using list_elem_of_here.
    intros b0 a1 b1 Ha1. apply Hf. now apply list_elem_of_further.
Qed.

Lemma not_negative_deposit cfg numCities ants i tau c tau' :
  (forall ant, ant ∈ ants -> (qval cfg / tourlength ant <? 0)%float = false) ->
  not_negative tau ->
  deposit cfg numCities ants i tau c = Ok tau' ->
  not_negative tau'.
Proof.
  unfold deposit. intros Hants Htau H. ok_inv H.
  repeat match goal with
  | Hi : index ants _ = Ok _ |- _ => apply index_Ok, list_elem_of_lookup_2 in Hi
  end.
  match goal with
  | Hold : index2 tau _ _ = Ok ?old,
    Hst : store2 tau _ _ (?old + _)%float = Ok ?tau1,
    Hv : index2 ?tau1 _ _ = Ok _ |- _ =>
      assert (Htau1 : not_negative tau1);
      [ eapply not_negative_store2; [exact Htau| |exact Hst];
        apply add_not_neg; [exact (not_negative_index2 _ _ _ _ Htau Hold)|auto]
      | eapply not_negative_store2; [exact Htau1| |exact H];
        exact (not_negative_index2 _ _ _ _ Htau1 Hv) ]
  end.
Qed.

Lemma not_negative_intensifyTrail cfg numCities ants tau tau' :
  (forall ant, ant ∈ ants -> (qval cfg / tourlength ant <? 0)%float = false) ->
  not_negative tau ->
  intensifyTrail cfg numCities ants tau = Ok tau' ->
  not_negative tau'.
Proof.
  intros Hants. unfold intensifyTrail.
  apply foldM_invariant. intros b i b' _.
  apply foldM_invariant. intros b0 c b0' _. now apply not_negative_deposit.
Qed.

(** C8, as the program has it.  From an initialized matrix, whatever calls
    of [evaporatePheromone] and [intensifyTrail] follow (each ant depositing
    a [qval / tourlength] that is not negative), no entry is below zero. *)
Theorem pheromone_never_negative cfg numCities calls tau :
  (forall ants ant, Intensify ants ∈ calls -> ant ∈ ants ->
                    (qval cfg / tourlength ant <? 0)%float = false) ->
  run_calls cfg numCities calls (initTrail numCities) = Ok tau ->
  forall i j v, index2 tau i j = Ok v -> (v <? 0)%float = false.
Proof.
  intros Hcalls Hrun i j v. apply not_negative_index2.
  revert Hrun. unfold run_calls.
  apply foldM_invariant; [|apply not_negative_initTrail].
  intros b [|ants] b' Hin Hb H; cbn in H.
  - injection H as <-. apply not_negative_evaporate.
  - eapply not_negative_intensifyTrail; [|exact Hb|exact H]. eauto.
Qed.

Lemma pheromone_never_negative_witness :
  exists tau,
    run_calls two_rounds 2
      [Intensify [done_ant]; Evaporate; Intensify [done_ant]; Evaporate]
      (initTrail 2) = Ok tau /\
    forall i j v, index2 tau i j = Ok v -> (v <? 0)%float = false.
Proof.
  eexists. split; [run|].
  apply (pheromone_never_negative two_rounds 2
           [Intensify [done_ant]; Evaporate; Intensify [done_ant]; Evaporate]).
  - intros ants ant Hc Ha.
    assert (ants = [done_ant]) as ->.
    { repeat (apply elem_of_cons in Hc as [Hc|Hc]; [try discriminate; try congruence|]).
      now apply elem_of_nil in Hc. }
    apply list_elem_of_singleton in Ha as ->. reflexivity.
  - run.
Defined.

(** C8 as stated fails: a thousand evaporations of an initialized matrix,
    with the [rho] of the program text, leave 0 on the edge 0-1. *)
Lemma pheromone_reaches_zero :
  exists tau v,
    run_calls defaults 2 (replicate 1000 Evaporate) (initTrail 2) = Ok tau /\
    index2 tau 0 1 = Ok v /\
    (0 <? v)%float = false.
Proof.
  eexists _, _. split; [run|]. split; [run|]. reflexivity.
Qed.

(** ** The distance matrix *)

Section Distances.

#[local] Open Scope float_scope.

Variable Pow : float -> float -> float.

(** What the properties use of [math.Pow]: a square does not depend on the
    sign of its base; the square and the square root of [+0] are [+0]; the
    square of a number is a number that is not negative; the square root
    of such a number is a number. *)
Hypothesis Pow_even : forall d, Pow (- d) 2 = Pow d 2.
Hypothesis Pow_0_2 : Pow 0 2 = 0.
Hypothesis Pow_0_half : Pow 0 0.5 = 0.
Hypothesis Pow_square_number :
  forall d, is_nan d = false -> is_nan (Pow d 2) = false /\ (Pow d 2 <? 0) = false.
Hypothesis Pow_root_number :
  forall s, is_nan s = false -> (s <? 0) = false -> is_nan (Pow s 0.5) = false.

Lemma calEdge_sym c1 c2 : calEdge Pow c1 c2 = calEdge Pow c2 c1.
Proof.
  unfold calEdge.
  destruct (sub_swap (y c1) (y c2)) as [-> | ->]; [|reflexivity].
  now rewrite Pow_even.
Qed.

Lemma calEdge_diag c : is_finite (y c) = true -> calEdge Pow c c = 0.
Proof.
  intros H. unfold calEdge. rewrite (sub_diag _ H), Pow_0_2.
  change (0 + 0) with 0. exact Pow_0_half.
Qed.

Lemma calEdge_number c1 c2 :
  is_finite (y c1) = true -> is_finite (y c2) = true ->
  is_nan (calEdge Pow c1 c2) = false.
Proof.
  intros H1 H2. unfold calEdge.
  destruct (Pow_square_number _ (sub_finite_number _ _ H2 H1)) as [Hn Hp].
  apply Pow_root_number; [now apply add_number|now apply add_not_neg].
Qed.

Lemma index2_initGraph cities i j ci cj :
  cities !! i = Some ci -> cities !! j = Some cj ->
  index2 (initGraph Pow cities) i j = Ok (calEdge Pow ci cj).
Proof.
  intros Hi Hj. unfold index2, index, initGraph.
  rewrite list_lookup_fmap, Hi. cbn. now rewrite list_lookup_fmap, Hj.
Qed.

End Distances.

(** C10, as the program has it.  For cities whose coordinates are numbers,
    the entries (i,j) and (j,i) of the distance matrix are one and the same
    [float64], equal under [==], and every diagonal entry is [+0]. *)
Theorem distance_matrix_symmetric Pow cities :
  (forall d, Pow (- d) 2 = Pow d 2)%float ->
  Pow 0%float 2%float = 0%float ->
  Pow 0%float 0.5%float = 0%float ->
  (forall d, is_nan d = false ->
             is_nan (Pow d 2%float) = false /\ (Pow d 2 <? 0)%float = false) ->
  (forall s, is_nan s = false -> (s <? 0)%float = false ->
             is_nan (Pow s 0.5%float) = false) ->
  Forall finite_city cities ->
  (forall i j, i < length cities -> j < length cities ->
     exists a b, index2 (initGraph Pow cities) i j = Ok a /\
                 index2 (initGraph Pow cities) j i = Ok b /\
                 a = b /\ (a =? b)%float = true) /\
  (forall i, i < length cities -> index2 (initGraph Pow cities) i i = Ok 0%float).
Proof.
  intros Heven H2 Hhalf Hsq Hroot Hfin. rewrite Forall_lookup in Hfin. split.
  - intros i j [ci Hi]%lookup_lt_is_Some_2 [cj Hj]%lookup_lt_is_Some_2.
    exists (calEdge Pow ci cj), (calEdge Pow cj ci).
    split; [now apply index2_initGraph|]. split; [now apply index2_initGraph|].
    rewrite (calEdge_sym Pow Heven cj ci). split; [reflexivity|].
    destruct (Hfin _ _ Hi) as [_ Hyi], (Hfin _ _ Hj) as [_ Hyj].
    pose proof (calEdge_number Pow Hsq Hroot ci cj Hyi Hyj) as Hn.
    unfold is_nan in Hn. now apply negb_false_iff in Hn.
  - intros i [ci Hi]%lookup_lt_is_Some_2.
    rewrite (index2_initGraph Pow cities i i ci ci Hi Hi).
    destruct (Hfin _ _ Hi) as [_ Hy]. now rewrite calEdge_diag.
Qed.

(** C10 as stated fails: for a city at infinity the diagonal entry is NaN,
    which is not 0 (and not equal to itself). *)
Lemma distance_of_infinite_city :
  index2 (initGraph Pow_special [mkCity 0 infinity]) 0 0 = Ok nan /\
  (nan =? 0)%float = false /\ (nan =? nan)%float = false.
Proof. repeat split; vm_compute; reflexivity. Qed.

Lemma distance_matrix_symmetric_witness :
  Forall finite_city four_cities /\
  (forall i j, i < length four_cities -> j < length four_cities ->
     exists a b, index2 (initGraph Pow_special four_cities) i j = Ok a /\
                 index2 (initGraph Pow_special four_cities) j i = Ok b /\
                 a = b /\ (a =? b)%float = true) /\
  (forall i, i < length four_cities ->
     index2 (initGraph Pow_special four_cities) i i = Ok 0%float).
Proof.
  assert (Hfin : Forall finite_city four_cities).
  { repeat constructor. }
  split; [exact Hfin|].
  exact (distance_matrix_symmetric Pow_special four_cities
           Pow_special_even eq_refl eq_refl
           Pow_special_square_number Pow_special_root_number Hfin).
Defined.

(** ** One step of an ant *)

Section Steps.

Variable Pow : float -> float -> float.
Variable cfg : config.
Variable numCities : nat.
Variables tauMatrix adjMatrix : matrix.

#[local] Abbreviation goToNewCity := (goToNewCity Pow cfg numCities tauMatrix adjMatrix).
#[local] Abbreviation moveAnt := (moveAnt Pow cfg numCities tauMatrix adjMatrix).
#[local] Abbreviation moveAnts := (moveAnts Pow cfg numCities tauMatrix adjMatrix).

Lemma goToNewCity_step fuel ant src ant' src' :
  goToNewCity fuel ant src = Ok (ant', src') ->
  currentCity ant' <> currentCity ant /\
  tabulist ant !! currentCity ant' = Some 0 /\
  tabulist ant' = <[currentCity ant' := 1]> (tabulist ant) /\
  tour ant' = <[tourIndex ant := currentCity ant']> (tour ant) /\
  tourIndex ant < length (tour ant) /\
  tourIndex ant' = S (tourIndex ant) /\
  nextCity ant' = currentCity ant'.
Proof.
  intros H.
  apply (goToNewCity_Ok Pow cfg numCities tauMatrix adjMatrix) in H
    as (denom & to & edge & len & _ & Hscan & _ & Hlt & _ & _ & ->).
  apply scan_Ok in Hscan as [Hto Hne]. cbn. auto 10.
Qed.

Lemma goToNewCity_standing fuel c k ant src ant' src' :
  tourIndex ant = k -> standing c k ant ->
  goToNewCity fuel ant src = Ok (ant', src') ->
  standing c (S k) ant'.
Proof.
  intros Hk Hs H.
  apply goToNewCity_step in H as (Hne & _ & _ & Htour & Hlt & _ & Hnext).
  rewrite Hk in *. unfold standing. rewrite Htour.
  split; [now apply list_lookup_insert_eq|]. split; [exact Hnext|].
  destruct k as [|k]; cbn in Hs.
  - exists (currentCity ant'). split; [now apply list_lookup_insert_eq|congruence].
  - destruct Hs as (_ & _ & first & Hfirst & Hc).
    exists first. split; [|exact Hc]. now rewrite list_lookup_insert_ne by lia.
Qed.

Lemma moveAnt_standing fuel c steps k ant src ant' src' :
  tourIndex ant = k -> standing c k ant ->
  moveAnt fuel steps ant src = Ok (ant', src') ->
  tourIndex ant' = steps + k /\ standing c (steps + k) ant'.
Proof.
  revert k ant src. induction steps as [|steps IH]; intros k ant src Hk Hs H.
  - injection H as <- <-. auto.
  - simpl in H. ok_inv H.
    replace (S steps + k) with (steps + S k) by lia.
    eapply IH; [| |exact H].
    + apply goToNewCity_step in Ha as (_ & _ & _ & _ & _ & -> & _). now rewrite Hk.
    + eapply goToNewCity_standing; eauto.
Qed.

Lemma standing_new c : standing c 0 (new_ant numCities c).
Proof. reflexivity. Qed.

End Steps.

(** X1. A call of [goToNewCity] that returns has moved the ant to a city
    that is not the one it stood on and whose tabu entry was 0; that entry
    is now 1, the city is written at [tourIndex] in the tour, [tourIndex]
    has advanced by one, and nothing else in the two slices has changed. *)
Theorem goToNewCity_selects Pow cfg numCities tauMatrix adjMatrix fuel ant src ant' src' :
  goToNewCity Pow cfg numCities tauMatrix adjMatrix fuel ant src = Ok (ant', src') ->
  currentCity ant' <> currentCity ant /\
  tabulist ant !! currentCity ant' = Some 0 /\
  tabulist ant' = <[currentCity ant' := 1]> (tabulist ant) /\
  tour ant' = <[tourIndex ant := currentCity ant']> (tour ant) /\
  tourIndex ant < length (tour ant) /\
  tourIndex ant' = S (tourIndex ant) /\
  nextCity ant' = currentCity ant'.
Proof. apply goToNewCity_step. Qed.

Lemma goToNewCity_selects_witness :
  exists ant' src',
    goToNewCity Pow_special linear 4 (initTrail 4) (initGraph Pow_special four_cities)
                20 (new_ant 4 2) (script [Float64 0.99; Float64 0]) = Ok (ant', src') /\
    currentCity ant' = 1 /\
    currentCity ant' <> currentCity (new_ant 4 2) /\
    tabulist (new_ant 4 2) !! currentCity ant' = Some 0 /\
    tabulist ant' = <[currentCity ant' := 1]> (tabulist (new_ant 4 2)) /\
    tour ant' = <[tourIndex (new_ant 4 2) := currentCity ant']> (tour (new_ant 4 2)) /\
    tourIndex (new_ant 4 2) < length (tour (new_ant 4 2)) /\
    tourIndex ant' = S (tourIndex (new_ant 4 2)) /\
    nextCity ant' = currentCity ant'.
Proof.
  eexists _, _. split; [run|]. split; [reflexivity|].
  eapply (goToNewCity_selects Pow_special linear 4 (initTrail 4)
            (initGraph Pow_special four_cities) 20 (new_ant 4 2)
            (script [Float64 0.99; Float64 0])).
  run.
Defined.

(** ** The colony of a round *)

Section Colony.

Variable Pow : float -> float -> float.
Variable cfg : config.
Variable numCities : nat.
Variables tauMatrix adjMatrix : matrix.

#[local] Abbreviation moveAnt := (moveAnt Pow cfg numCities tauMatrix adjMatrix).
#[local] Abbreviation moveAnts := (moveAnts Pow cfg numCities tauMatrix adjMatrix).

Lemma initAnts_loop_Ok n src :
  0 < numCities ->
  exists ants src',
    initAnts_loop n numCities src = Ok (ants, src') /\
    length ants = n /\
    calls src' = calls src + n /\
    float64_at src' = float64_at src /\ int_at src' = int_at src /\
    Forall (fun ant => exists c, c < numCities /\ ant = new_ant numCities c) ants.
Proof.
  intros HN. revert src. induction n as [|n IH]; intros src.
  - exists [], src. repeat split; auto.
  - destruct (IH (advance src)) as (ants & src' & Hrun & Hlen & Hcalls & Hf & Hi & Hnew).
    exists (new_ant numCities (int_at src (calls src) mod numCities) :: ants), src'.
    split.
    + simpl. unfold rand_Intn. destruct (Nat.eqb_spec numCities 0) as [?|_]; [lia|].
      cbn. rewrite Hrun. reflexivity.
    + split; [cbn; now rewrite Hlen|]. split; [rewrite Hcalls; cbn; lia|].
      split; [exact Hf|]. split; [exact Hi|].
      constructor; [|exact Hnew].
      eexists. split; [|reflexivity]. apply Nat.mod_upper_bound. lia.
Qed.

(** X2. With at least one city, [initAnts] returns [numAnts] ants, each a
    new ant (nothing visited, a tour of zeros, length 0) standing on a city
    below [numCities], and it has called the generator once per ant. *)
Theorem initAnts_population src :
  0 < numCities ->
  exists ants src',
    initAnts cfg numCities src = Ok (ants, src') /\
    length ants = numAnts cfg /\
    calls src' = calls src + numAnts cfg /\
    Forall (fun ant => exists c, c < numCities /\ ant = new_ant numCities c) ants.
Proof.
  intros HN.
  destruct (initAnts_loop_Ok (numAnts cfg) src HN)
    as (ants & src' & Hrun & Hlen & Hcalls & _ & _ & Hnew).
  exists ants, src'. auto.
Qed.

Lemma moveAnts_Forall2 (P : ant_t -> Prop) (Q : ant_t -> ant_t -> Prop) fuel :
  (forall ant src ant' src',
      P ant -> moveAnt fuel numCities ant src = Ok (ant', src') -> Q ant ant') ->
  forall ants src ants' src',
    Forall P ants ->
    moveAnts fuel ants src = Ok (ants', src') ->
    Forall2 Q ants ants'.
Proof.
  intros HPQ ants. induction ants as [|ant ants IH]; intros src ants' src' HP H.
  - injection H as <- <-. constructor.
  - simpl in H. ok_inv H. injection H as <- <-.
    inversion HP; subst. constructor; eauto.
Qed.

Lemma visiting_all_ones ant :
  visiting numCities numCities ant -> tabulist ant = replicate numCities 1.
Proof.
  intros Hv. pose proof (visiting_all numCities ant Hv) as Hperm.
  destruct Hv as (_ & Htour & Htabu & _ & Hin).
  rewrite take_ge in Hin by lia.
  apply list_eq. intros i.
  destruct (decide (i < numCities)) as [Hi|Hi].
  - rewrite lookup_replicate_2 by lia. apply Hin.
    rewrite Hperm. apply elem_of_seq. lia.
  - rewrite !lookup_ge_None_2; [reflexivity|rewrite length_replicate; lia|lia].
Qed.

(** X3. When [moveAnts] returns, the colony has as many ants as before and
    every ant is at the end of its tour: [tourIndex] is [numCities], every
    tabu entry is 1, the ant stands on the last city of its tour, and the
    first city of its tour is not the city [initAnts] had placed it on. *)
Theorem moveAnts_finishes fuel src ants0 src1 ants src2 :
  initAnts cfg numCities src = Ok (ants0, src1) ->
  moveAnts fuel ants0 src1 = Ok (ants, src2) ->
  Forall2 (fun ant0 ant =>
             tourIndex ant = numCities /\
             length (tour ant) = numCities /\
             tabulist ant = replicate numCities 1 /\
             last (tour ant) = Some (currentCity ant) /\
             nextCity ant = currentCity ant /\
             exists first, tour ant !! 0 = Some first /\ first <> currentCity ant0)
          ants0 ants.
Proof.
  intros Hinit Hmove.
  assert (HN : 0 < numCities \/ ants0 = []).
  { destruct numCities as [|n] eqn:E; [right|left; lia].
    unfold initAnts in Hinit. destruct (numAnts cfg); cbn in Hinit; [|discriminate].
    now injection Hinit as <- _. }
  destruct HN as [HN| ->]; [|injection Hmove as <- _; constructor].
  apply initAnts_loop_new in Hinit.
  eapply moveAnts_Forall2; [|exact Hinit|exact Hmove].
  intros ant s ant' s' [c ->] H.
  pose proof (moveAnt_visiting _ _ _ _ _ _ _ _ _ _ _ _ (visiting_new numCities c) H) as Hv.
  rewrite Nat.add_0_r in Hv.
  pose proof (moveAnt_standing Pow cfg numCities tauMatrix adjMatrix fuel c numCities 0
                (new_ant numCities c) s ant' s' eq_refl (standing_new numCities c) H)
    as [Hidx Hs].
  rewrite Nat.add_0_r in Hidx, Hs.
  destruct Hv as (Hk & Htour & Hrest). pose proof (conj Hk (conj Htour Hrest)) as Hv.
  destruct numCities as [|n] eqn:E; [lia|]. rewrite <- E in *.
  rewrite E in Hs. cbn in Hs. destruct Hs as (Hlast & Hnext & Hfirst).
  repeat split; auto.
  - now apply visiting_all_ones.
  - rewrite last_lookup, Htour, E. exact Hlast.
Qed.

(** X4. The length [moveAnts] leaves in an ant is the cost of the walk that
    starts on the city [initAnts] had placed the ant on, goes through the
    whole tour in order and returns to the first city of the tour, the
    edges added one by one in that order. *)
Theorem moveAnts_tourlength fuel src ants0 src1 ants src2 :
  initAnts cfg numCities src = Ok (ants0, src1) ->
  moveAnts fuel ants0 src1 = Ok (ants, src2) ->
  Forall2 (fun ant0 ant =>
             walk adjMatrix 0%float (currentCity ant0 :: tour ant ++ take 1 (tour ant))
             = Ok (tourlength ant))
          ants0 ants.
Proof.
  intros Hinit Hmove. apply initAnts_loop_new in Hinit.
  eapply moveAnts_Forall2; [|exact Hinit|exact Hmove].
  intros ant s ant' s' [c ->] H. cbn.
  exact (moveAnt_tourlength Pow cfg numCities tauMatrix adjMatrix _ c _ _ _ H).
Qed.

End Colony.

Lemma initAnts_population_witness :
  0 < 4 /\
  exists ants src',
    initAnts linear 4 (script [Intn 2; Intn 5]) = Ok (ants, src') /\
    length ants = numAnts linear /\
    calls src' = calls (script [Intn 2; Intn 5]) + numAnts linear /\
    Forall (fun ant => exists c, c < 4 /\ ant = new_ant 4 c) ants.
Proof.
  split; [lia|]. apply (initAnts_population linear 4 (script [Intn 2; Intn 5])). lia.
Defined.

Lemma moveAnts_finishes_witness :
  exists ants0 src1 ants src2,
    initAnts two_ants 4 (script [Intn 2; Intn 5]) = Ok (ants0, src1) /\
    moveAnts Pow_special two_ants 4 (initTrail 4) (initGraph Pow_special four_cities)
             20 ants0 src1 = Ok (ants, src2) /\
    map tour ants = [[0; 1; 2; 3]; [0; 1; 2; 3]] /\
    Forall2 (fun ant0 ant =>
               tourIndex ant = 4 /\
               length (tour ant) = 4 /\
               tabulist ant = replicate 4 1 /\
               last (tour ant) = Some (currentCity ant) /\
               nextCity ant = currentCity ant /\
               exists first, tour ant !! 0 = Some first /\ first <> currentCity ant0)
            ants0 ants.
Proof.
  eexists _, _, _, _. split; [run|]. split; [run|]. split; [reflexivity|].
  eapply (moveAnts_finishes Pow_special two_ants 4 (initTrail 4)
            (initGraph Pow_special four_cities) 20 (script [Intn 2; Intn 5])); run.
Defined.

Lemma moveAnts_tourlength_witness :
  exists ants0 src1 ants src2,
    initAnts two_ants 4 (script [Intn 2; Intn 5]) = Ok (ants0, src1) /\
    moveAnts Pow_special two_ants 4 (initTrail 4) (initGraph Pow_special four_cities)
             20 ants0 src1 = Ok (ants, src2) /\
    Forall2 (fun ant0 ant =>
               walk (initGraph Pow_special four_cities) 0%float
                    (currentCity ant0 :: tour ant ++ take 1 (tour ant))
               = Ok (tourlength ant))
            ants0 ants.
Proof.
  eexists _, _, _, _. split; [run|]. split; [run|].
  eapply (moveAnts_tourlength Pow_special two_ants 4 (initTrail 4)
            (initGraph Pow_special four_cities) 20 (script [Intn 2; Intn 5])); run.
Defined.

(** ** Runs that do not return *)

Section NoCandidate.

Variable Pow : float -> float -> float.
Variable cfg : config.
Variable numCities : nat.
Variables tauMatrix adjMatrix : matrix.
Variable ant : ant_t.

Hypothesis some_city : 0 < numCities.
Hypothesis tabu_length : length (tabulist ant) = numCities.
Hypothesis all_visited :
  forall to, to < numCities -> to <> currentCity ant -> tabulist ant !! to <> Some 0.

Lemma tabu_entry to :
  to < numCities -> to <> currentCity ant ->
  exists tb, index (tabulist ant) to = Ok tb /\ (tb =? 0)%nat = false.
Proof.
  intros Hto Hne. destruct (index_lt (tabulist ant) to) as [tb Htb]; [lia|].
  exists tb. split; [exact Htb|]. apply Nat.eqb_neq. intros ->.
  apply index_Ok in Htb. now apply (all_visited to).
Qed.

Lemma denom_step_no_candidate d to :
  to < numCities ->
  denom_step Pow cfg tauMatrix adjMatrix ant (currentCity ant) d to = Ok d.
Proof.
  intros Hto. unfold denom_step.
  destruct (Nat.eqb_spec (currentCity ant) to) as [E|E]; cbn; [reflexivity|].
  destruct (tabu_entry to Hto) as (tb & Hi & Hz); [congruence|].
  rewrite Hi. cbn. now rewrite Hz.
Qed.

Lemma denominator_no_candidate l d :
  Forall (fun to => to < numCities) l ->
  foldM (denom_step Pow cfg tauMatrix adjMatrix ant (currentCity ant)) d l = Ok d.
Proof.
  induction 1 as [|to l Hto _ IH]; [reflexivity|].
  cbn [foldM]. rewrite denom_step_no_candidate by exact Hto. exact IH.
Qed.

Lemma scan_no_candidate denom fuel to src :
  to < numCities ->
  scan Pow cfg numCities tauMatrix adjMatrix ant (currentCity ant) denom fuel to src
  = Timeout.
Proof.
  revert to src. induction fuel as [|fuel IH]; intros to src Hto; [reflexivity|].
  assert (Hnext : modulo (to + 1) numCities = Ok ((to + 1) mod numCities)).
  { apply modulo_Ok. split; [lia|reflexivity]. }
  assert (Hlt : (to + 1) mod numCities < numCities) by (apply Nat.mod_upper_bound; lia).
  cbn -[modulo]. 
  destruct (Nat.eqb_spec (currentCity ant) to) as [E|E]; cbn -[modulo].
  - rewrite Hnext. cbn. now apply IH.
  - destruct (tabu_entry to Hto) as (tb & Hi & Hz); [congruence|].
    rewrite Hi. cbn -[modulo]. rewrite Hz, Hnext. cbn. now apply IH.
Qed.

Lemma goToNewCity_no_candidate fuel src :
  goToNewCity Pow cfg numCities tauMatrix adjMatrix fuel ant src = Timeout.
Proof.
  unfold goToNewCity, denominator.
  rewrite denominator_no_candidate.
  - cbn. now rewrite scan_no_candidate.
  - apply Forall_forall. intros to Hto%elem_of_seq. lia.
Qed.

End NoCandidate.

(** X5. An ant that has no unvisited city other than the one it stands on
    cannot be moved: the call of [goToNewCity] goes round the cities for
    ever, whatever the random numbers. *)
Theorem goToNewCity_without_candidate Pow cfg numCities tauMatrix adjMatrix ant fuel src :
  0 < numCities ->
  length (tabulist ant) = numCities ->
  (forall to, to < numCities -> to <> currentCity ant -> tabulist ant !! to <> Some 0) ->
  goToNewCity Pow cfg numCities tauMatrix adjMatrix fuel ant src = Timeout.
Proof. intros HN Hlen Hall. now apply goToNewCity_no_candidate. Qed.

Lemma goToNewCity_without_candidate_witness :
  goToNewCity Pow_special linear 2 (initTrail 2) (initGraph Pow_special two_cities)
              1000 done_ant (script []) = Timeout.
Proof.
  apply (goToNewCity_without_candidate Pow_special linear 2 (initTrail 2)
           (initGraph Pow_special two_cities) done_ant 1000 (script [])).
  - lia.
  - reflexivity.
  - intros [|[|to]] Hto Hne; cbn; [discriminate|discriminate|lia].
Defined.

(** ** Runs that do not panic *)

Lemma safe_bind {A B : Type} (P : A -> Prop) (Q : B -> Prop) (m : result A) (k : A -> result B) :
  safe P m -> (forall a, P a -> safe Q (k a)) -> safe Q (m ≫= k).
Proof. destruct m; cbn; auto. Qed.

Lemma safe_weaken {A : Type} (P Q : A -> Prop) (r : result A) :
  safe P r -> (forall a, P a -> Q a) -> safe Q r.
Proof. destruct r; cbn; auto. Qed.

Lemma safe_not_Panic {A : Type} (P : A -> Prop) (r : result A) : safe P r -> r <> Panic.
Proof. destruct r; cbn; congruence. Qed.

Lemma safe_foldM {A B : Type} (I : B -> Prop) (f : B -> A -> result B) (l : list A) (b : B) :
  I b -> (forall b a, a ∈ l -> I b -> safe I (f b a)) -> safe I (foldM f b l).
Proof.
  revert b. induction l as [|a l IH]; intros b Hb Hf; [exact Hb|].
  cbn [foldM]. eapply safe_bind; [apply Hf; [apply list_elem_of_here|exact Hb]|].
  intros b' Hb'. apply IH; [exact Hb'|].
  intros b0 a0 Ha0. apply Hf. now apply list_elem_of_further.
Qed.

Lemma safe_index {A : Type} (s : list A) (i : nat) :
  i < length s -> safe (fun a => s !! i = Some a) (index s i).
Proof.
  intros [a Ha]%lookup_lt_is_Some_2. unfold index. now rewrite Ha.
Qed.

Lemma safe_store {A : Type} (s : list A) (i : nat) (v : A) :
  i < length s -> safe (fun s' => s' = <[i := v]> s) (store s i v).
Proof.
  intros Hi. unfold store. destruct (Nat.ltb_spec i (length s)); [reflexivity|lia].
Qed.

Lemma safe_modulo (a n : nat) : 0 < n -> safe (fun r => r < n) (modulo a n).
Proof.
  intros Hn. unfold modulo. destruct (Nat.eqb_spec n 0); [lia|].
  cbn. apply Nat.mod_upper_bound. lia.
Qed.

Lemma safe_index2 n (m : matrix) i j :
  square n m -> i < n -> j < n -> safe (fun _ => True) (index2 m i j).
Proof.
  intros Hm Hi Hj. destruct (index2_square n m i j Hm Hi Hj) as [v ->]. exact I.
Qed.

Lemma square_insert n (m : matrix) i row :
  square n m -> length row = n -> square n (<[i := row]> m).
Proof.
  intros [Hlen Hrows] Hrow. split; [now rewrite length_insert|].
  now apply Forall_insert.
Qed.

Lemma safe_store2 n (m : matrix) i j v :
  square n m -> i < n -> j < n -> safe (square n) (store2 m i j v).
Proof.
  intros Hm Hi Hj. pose proof Hm as [Hlen Hrows]. unfold store2.
  eapply safe_bind; [apply safe_index; lia|]. intros row Hrow.
  rewrite Forall_lookup in Hrows. specialize (Hrows _ _ Hrow).
  eapply safe_bind; [apply safe_store; lia|]. intros row' ->.
  eapply safe_weaken; [apply safe_store; lia|]. intros m' ->.
  apply square_insert; [exact Hm|]. now rewrite length_insert.
Qed.

Lemma square_initTrail n : square n (initTrail n).
Proof.
  unfold initTrail. split; [now rewrite length_map, length_seq|].
  apply Forall_fmap, Forall_forall. intros i _. cbn.
  now rewrite length_map, length_seq.
Qed.

Lemma square_initGraph Pow cities : square (length cities) (initGraph Pow cities).
Proof.
  unfold initGraph. split; [now rewrite length_map|].
  apply Forall_fmap, Forall_forall. intros c _. cbn. now rewrite length_map.
Qed.

Lemma square_evaporatePheromone cfg n tau :
  square n tau -> square n (evaporatePheromone cfg tau).
Proof.
  intros [Hlen Hrows]. unfold evaporatePheromone.
  split; [now rewrite length_map|].
  apply Forall_fmap. eapply Forall_impl; [exact Hrows|].
  intros row Hrow. cbn. now rewrite length_map.
Qed.

Section NoPanic.

Variable Pow : float -> float -> float.
Variable cfg : config.
Variable numCities : nat.
Variable adjMatrix : matrix.

Hypothesis some_city : 0 < numCities.
Hypothesis adj_square : square numCities adjMatrix.

Section Moving.

Variable tauMatrix : matrix.
Hypothesis tau_square : square numCities tauMatrix.

#[local] Abbreviation denominator := (denominator Pow cfg numCities tauMatrix adjMatrix).
#[local] Abbreviation scan := (scan Pow cfg numCities tauMatrix adjMatrix).
#[local] Abbreviation goToNewCity := (goToNewCity Pow cfg numCities tauMatrix adjMatrix).
Lemma safe_denominator ant :
  roaming numCities ant -> safe (fun _ => True) (denominator ant (currentCity ant)).
Proof.
  intros (Hcur & Htabu & _). unfold denominator.
  apply safe_foldM; [exact I|].
  intros d to Hto%elem_of_seq _. unfold denom_step.
  destruct (negb (currentCity ant =? to)); [|exact I].
  eapply safe_bind; [apply safe_index; lia|]. intros tb _.
  destruct (tb =? 0); [|exact I].
  eapply safe_bind; [apply (safe_index2 numCities); auto; lia|]. intros t _.
  destruct (negb (t =? 0)%float); [|exact I].
  eapply safe_bind; [apply (safe_index2 numCities); auto; lia|]. intros a _.
  now destruct (negb (a =? 0)%float).
Qed.

Lemma safe_scan ant denom fuel to src :
  roaming numCities ant -> to < numCities ->
  safe (fun r => fst r < numCities) (scan ant (currentCity ant) denom fuel to src).
Proof.
  intros (Hcur & Htabu & _). revert to src.
  induction fuel as [|fuel IH]; intros to src Hto; [exact I|].
  assert (Hnext : forall s,
             safe (fun r => fst r < numCities)
                  (to' ← modulo (to + 1) numCities;
                   scan ant (currentCity ant) denom fuel to' s)).
  { intros s. eapply safe_bind; [now apply safe_modulo|]. intros to' Hto'. now apply IH. }
  cbn -[modulo].
  destruct (negb (currentCity ant =? to)); [|apply Hnext].
  eapply safe_bind; [apply safe_index; lia|]. intros tb _.
  destruct (tb =? 0); [|apply Hnext].
  eapply safe_bind; [apply (safe_index2 numCities); auto; lia|]. intros t _.
  eapply safe_bind; [apply (safe_index2 numCities); auto; lia|]. intros a _.
  destruct (_ <? _)%float; [exact Hto|apply Hnext].
Qed.

Lemma safe_goToNewCity fuel ant src :
  roaming numCities ant -> tourIndex ant < numCities ->
  safe (fun r => roaming numCities (fst r) /\ tourIndex (fst r) = S (tourIndex ant))
       (goToNewCity fuel ant src).
Proof.
  intros Hant Hidx. pose proof Hant as (Hcur & Htabu & Htour & Hin).
  unfold goToNewCity.
  eapply safe_bind; [now apply safe_denominator|]. intros denom _.
  eapply safe_bind; [now apply safe_scan|]. intros [to src'] Hto. cbn in Hto.
  eapply safe_bind; [apply safe_store; lia|]. intros tabulist' ->.
  eapply safe_bind; [apply safe_store; lia|]. intros tour' ->.
  eapply safe_bind; [apply (safe_index2 numCities); auto|]. intros edge _.
  assert (Hin' : Forall (fun c => c < numCities) (<[tourIndex ant := to]> (tour ant))).
  { now apply Forall_insert. }
  eapply (safe_bind (fun _ => True)).
  - destruct (S (tourIndex ant) =? numCities); [|exact I].
    eapply safe_bind; [apply safe_index; rewrite length_insert; lia|]. intros last Hlast. cbn beta in Hlast.
    eapply safe_bind; [apply safe_index; rewrite length_insert; lia|]. intros first Hfirst. cbn beta in Hfirst.
    rewrite Forall_lookup in Hin'.
    eapply safe_bind; [apply (safe_index2 numCities); eauto|]. now intros closing _.
  - intros len _. cbn. unfold roaming. cbn. rewrite !length_insert. auto.
Qed.

Lemma safe_moveAnt fuel steps ant src :
  roaming numCities ant -> tourIndex ant + steps <= numCities ->
  safe (fun r => roaming numCities (fst r)) (moveAnt Pow cfg numCities tauMatrix adjMatrix fuel steps ant src).
Proof.
  revert ant src. induction steps as [|steps IH]; intros ant src Hant Hidx; [exact Hant|].
  cbn [moveAnt].
  eapply safe_bind; [apply safe_goToNewCity; [exact Hant|lia]|].
  intros [ant' src'] [Hant' Hidx']. cbn in Hant', Hidx'. apply IH; [exact Hant'|lia].
Qed.

Lemma safe_moveAnts fuel ants src :
  Forall (fun ant => roaming numCities ant /\ tourIndex ant = 0) ants ->
  safe (fun r => Forall (roaming numCities) (fst r) /\ length (fst r) = length ants)
       (moveAnts Pow cfg numCities tauMatrix adjMatrix fuel ants src).
Proof.
  revert src. induction ants as [|ant ants IH]; intros src Hants.
  - cbn. auto.
  - inversion Hants as [|? ? [Hant Hidx] Hrest]; subst. cbn [moveAnts].
    eapply safe_bind; [apply safe_moveAnt; [exact Hant|lia]|].
    intros [ant' src1] Hant'. cbn in Hant'.
    eapply safe_bind; [now apply IH|].
    intros [rest' src2] [Hrest' Hlen]. cbn in Hrest', Hlen. cbn. split; [auto|lia].
Qed.

End Moving.

Lemma roaming_new c : c < numCities -> roaming numCities (new_ant numCities c).
Proof.
  intros Hc. unfold roaming, new_ant. cbn. rewrite !length_replicate.
  repeat split; auto. apply Forall_replicate. exact some_city.
Qed.

Lemma safe_deposit ants i tau c :
  Forall (roaming numCities) ants -> i < length ants -> c < numCities ->
  square numCities tau ->
  safe (square numCities) (deposit cfg numCities ants i tau c).
Proof.
  intros Hants Hi Hc Htau. unfold deposit.
  rewrite Forall_lookup in Hants.
  assert (Hcity : forall ant k, ants !! i = Some ant -> k < numCities ->
            safe (fun v => v < numCities) (index (tour ant) k)).
  { intros ant k Hant Hk. destruct (Hants _ _ Hant) as (_ & _ & Htour & Hin).
    eapply safe_weaken; [apply safe_index; lia|].
    intros v Hv. cbn beta in Hv. rewrite Forall_lookup in Hin. eauto. }
  eapply safe_bind; [now apply safe_index|]. intros ant Hant. cbn beta in *.
  eapply safe_bind; [now apply Hcity|]. intros from Hfrom. cbn beta in *.
  eapply safe_bind; [now apply safe_modulo|]. intros c' Hc'. cbn beta in *.
  eapply safe_bind; [now apply safe_index|]. intros ant' Hant'. cbn beta in *.
  eapply safe_bind; [now apply Hcity|]. intros to Hto. cbn beta in *.
  eapply safe_bind; [now apply safe_index|]. intros ant'' _.
  eapply safe_bind; [now apply (safe_index2 numCities)|]. intros old _.
  eapply safe_bind; [now apply (safe_store2 numCities)|]. intros tau1 Htau1. cbn beta in *.
  eapply safe_bind; [now apply (safe_index2 numCities)|]. intros v _.
  now apply (safe_store2 numCities).
Qed.

Lemma safe_intensifyTrail ants tau :
  Forall (roaming numCities) ants -> length ants = numAnts cfg ->
  square numCities tau ->
  safe (square numCities) (intensifyTrail cfg numCities ants tau).
Proof.
  intros Hants Hlen Htau. unfold intensifyTrail.
  apply safe_foldM; [exact Htau|].
  intros tau1 i Hi%elem_of_seq Htau1.
  apply safe_foldM; [exact Htau1|].
  intros tau2 c Hc%elem_of_seq Htau2.
  apply safe_deposit; auto; lia.
Qed.

Lemma safe_initAnts src :
  safe (fun r => Forall (fun ant => roaming numCities ant /\ tourIndex ant = 0) (fst r) /\
                 length (fst r) = numAnts cfg)
       (initAnts cfg numCities src).
Proof.
  destruct (initAnts_loop_Ok numCities (numAnts cfg) src some_city)
    as (ants & src' & Hrun & Hlen & _ & _ & _ & Hnew).
  unfold initAnts. rewrite Hrun. cbn. split; [|exact Hlen].
  eapply Forall_impl; [exact Hnew|].
  intros ant (c & Hc & ->). split; [now apply roaming_new|reflexivity].
Qed.

Hypothesis some_ant : 0 < numAnts cfg.

Lemma safe_round fuel st :
  square numCities (tauMatrix st) ->
  safe (fun st' => square numCities (tauMatrix st')) (round Pow cfg numCities adjMatrix fuel st).
Proof.
  intros Htau. unfold round.
  eapply safe_bind; [apply safe_initAnts|].
  intros [ants0 src1] [Hants0 Hlen0]. cbn in Hants0, Hlen0.
  eapply safe_bind; [now apply safe_moveAnts|].
  intros [ants src2] [Hants Hlen]. cbn in Hants, Hlen.
  eapply safe_bind; [apply safe_intensifyTrail; auto; lia|]. intros tau' Htau'.
  assert (Hfirst : safe (fun _ : ant_t => True) (index ants 0)).
  { eapply safe_weaken; [apply safe_index; lia|]. auto. }
  eapply (safe_bind (fun _ => True)).
  { unfold calculateBest. eapply safe_bind; [exact Hfirst|]. now intros ant0 _. }
  intros [best besttour'] _.
  eapply (safe_bind (fun _ => True)).
  { unfold calculateAvg. eapply safe_bind; [exact Hfirst|]. now intros ant0 _. }
  intros avg _. exact Htau'.
Qed.

Lemma safe_rounds fuel n st :
  square numCities (tauMatrix st) ->
  safe (fun st' => square numCities (tauMatrix st'))
       (rounds Pow cfg numCities adjMatrix fuel n st).
Proof.
  revert st. induction n as [|n IH]; intros st Htau; [exact Htau|].
  cbn [rounds]. eapply safe_bind; [now apply safe_round|]. exact IH.
Qed.

Lemma safe_experiment fuel tau src :
  square numCities tau ->
  safe (fun r => square numCities (snd (fst r)))
       (experiment Pow cfg numCities adjMatrix fuel tau src).
Proof.
  intros Htau. unfold experiment.
  eapply safe_bind; [now apply safe_rounds|]. intros st Hst. cbn.
  now apply square_evaporatePheromone.
Qed.

Lemma safe_experiments fuel n tau src :
  square numCities tau ->
  safe (fun _ => True) (experiments Pow cfg numCities adjMatrix fuel n tau src).
Proof.
  revert tau src. induction n as [|n IH]; intros tau src Htau; [exact I|].
  cbn [experiments]. eapply safe_bind; [now apply safe_experiment|].
  intros [[r tau'] src'] Htau'. cbn in Htau'.
  eapply safe_bind; [now apply IH|]. now intros rs _.
Qed.

End NoPanic.

Lemma safe_main Pow cfg cities fuel src :
  cities <> [] -> 0 < numAnts cfg ->
  safe (fun _ => True) (main Pow cfg cities fuel src).
Proof.
  intros Hc Ha. unfold main. apply safe_experiments; auto.
  - destruct cities; [congruence|cbn; lia].
  - apply square_initGraph.
  - apply square_initTrail.
Qed.

(** ** When [main] panics and when it hangs *)

Lemma main_without_ants Pow cfg cities fuel src :
  0 < times cfg -> 0 < tours cfg -> numAnts cfg = 0 ->
  main Pow cfg cities fuel src = Panic.
Proof.
  intros Htimes Htours Hants. unfold main.
  destruct (times cfg) as [|n]; [lia|]. cbn [experiments]. unfold experiment.
  destruct (tours cfg) as [|m]; [lia|]. cbn [rounds]. unfold round at 1.
  unfold initAnts, intensifyTrail. rewrite Hants. reflexivity.
Qed.

Lemma main_without_cities Pow cfg fuel src :
  0 < times cfg -> 0 < tours cfg ->
  main Pow cfg [] fuel src = Panic.
Proof.
  intros Htimes Htours.
  destruct (numAnts cfg) as [|k] eqn:Hants; [now apply main_without_ants|].
  unfold main.
  destruct (times cfg) as [|n]; [lia|]. cbn [experiments]. unfold experiment.
  destruct (tours cfg) as [|m]; [lia|]. cbn [rounds]. unfold round at 1.
  unfold initAnts. rewrite Hants. reflexivity.
Qed.

(** X6. With exactly one city no ant can move: the first call of
    [goToNewCity] finds no city other than the one the ant stands on, and
    [main] does not get past the first [moveAnts], however long it runs
    (there is an ant, and both loops of [main] are entered). *)
Theorem main_single_city_never_returns Pow cfg c fuel src :
  0 < times cfg -> 0 < tours cfg -> 0 < numAnts cfg ->
  main Pow cfg [c] fuel src = Timeout.
Proof.
  intros Htimes Htours Hants. unfold main.
  destruct (times cfg) as [|n]; [lia|]. cbn [experiments]. unfold experiment.
  destruct (tours cfg) as [|m]; [lia|]. cbn [rounds]. unfold round at 1.
  unfold initAnts. destruct (numAnts cfg) as [|k]; [lia|].
  cbn [initAnts_loop length]. unfold rand_Intn at 1. cbn [Nat.eqb].
  destruct (initAnts_loop_Ok 1 k (advance src)) as (ants & src' & Hrun & _); [lia|].
  cbn [mbind result_bind mret result_ret rand]. rewrite Hrun.
  cbn [mbind result_bind mret result_ret tauMatrix moveAnts moveAnt].
  rewrite goToNewCity_no_candidate; [reflexivity|lia|reflexivity|].
  intros to Hto Hne. cbn in Hne.
  pose proof (Nat.mod_upper_bound (int_at src (calls src)) 1). lia.
Qed.

Lemma main_single_city_never_returns_witness :
  main Pow_special linear [mkCity 0 0] 1000 (script []) = Timeout.
Proof.
  apply (main_single_city_never_returns Pow_special linear (mkCity 0 0) 1000 (script []));
    cbn; lia.
Defined.

(** X7. [main] panics when there is no city (in [rand.Intn(0)] of
    [initAnts], or in [ants[0]] if there is no ant either) and when there is
    no ant (in [ants[0]] of [calculateBest]), as soon as both of its loops
    are entered. *)
Theorem main_panics_without_cities_or_ants Pow cfg cities fuel src :
  0 < times cfg -> 0 < tours cfg ->
  cities = [] \/ numAnts cfg = 0 ->
  main Pow cfg cities fuel src = Panic.
Proof.
  intros Htimes Htours [-> | Hants];
    [now apply main_without_cities|now apply main_without_ants].
Qed.

Lemma main_panics_without_cities_or_ants_witness :
  main Pow_special linear [] 10 (script []) = Panic.
Proof.
  apply (main_panics_without_cities_or_ants Pow_special linear [] 10 (script []));
    [cbn; lia|cbn; lia|now left].
Defined.

(** X8. Whatever the parameters, the cities and the random numbers, and
    however long it runs, [main] does not panic when there is a city and an
    ant: no index is out of range, no [int] is divided by zero and
    [rand.Intn] gets a positive bound. *)
Theorem main_never_panics Pow cfg cities fuel src :
  cities <> [] -> 0 < numAnts cfg ->
  main Pow cfg cities fuel src <> Panic.
Proof.
  intros Hc Ha. apply (safe_not_Panic (fun _ => True)). now apply safe_main.
Qed.

Lemma main_never_panics_witness :
  main Pow_special two_experiments two_cities 10 (script []) <> Panic.
Proof.
  apply (main_never_panics Pow_special two_experiments two_cities 10 (script []));
    [discriminate|cbn; lia].
Defined.

(** ** The shape of the pheromone matrix *)

Lemma index2_store2 (m m' : matrix) i j v a b :
  store2 m i j v = Ok m' ->
  index2 m' a b = if decide (a = i /\ b = j) then Ok v else index2 m a b.
Proof.
  unfold store2. intros H. ok_inv H.
  apply index_Ok in Ha. apply store_Ok in Ha0 as [Hj ->]. apply store_Ok in H as [Hi ->].
  unfold index2, index.
  destruct (decide (a = i)) as [->|Hai].
  - rewrite list_lookup_insert_eq by exact Hi. cbn.
    destruct (decide (b = j)) as [->|Hbj].
    + rewrite list_lookup_insert_eq by exact Hj.
      destruct (decide (i = i /\ j = j)) as [_|[]]; auto.
    + rewrite list_lookup_insert_ne by congruence. rewrite Ha. cbn.
      destruct (decide (i = i /\ b = j)) as [[_ ?]|_]; [congruence|reflexivity].
  - rewrite list_lookup_insert_ne by congruence.
    destruct (decide (a = i /\ b = j)) as [[? _]|_]; [congruence|reflexivity].
Qed.

Lemma square_store2 n (m m' : matrix) i j v :
  square n m -> store2 m i j v = Ok m' -> square n m'.
Proof.
  unfold store2. intros Hm H. ok_inv H.
  apply index_Ok in Ha. apply store_Ok in Ha0 as [_ ->]. apply store_Ok in H as [_ ->].
  apply square_insert; [exact Hm|]. rewrite length_insert.
  destruct Hm as [_ Hrows]. rewrite Forall_lookup in Hrows. eauto.
Qed.

Lemma symmetric_initTrail n : symmetric (initTrail n).
Proof.
  intros i j.
  destruct (decide (i < n)) as [Hi|Hi]; destruct (decide (j < n)) as [Hj|Hj].
  - rewrite !initTrail_entries by lia. rewrite (Nat.eqb_sym j i). reflexivity.
  - unfold index2, index, initTrail.
    rewrite list_lookup_fmap, lookup_seq_lt by lia. cbn.
    rewrite !list_lookup_fmap, !lookup_seq_ge by lia. reflexivity.
  - unfold index2, index, initTrail.
    rewrite (list_lookup_fmap _ _ j), (lookup_seq_lt _ _ j) by lia. cbn.
    rewrite !list_lookup_fmap, !lookup_seq_ge by lia. reflexivity.
  - unfold index2, index, initTrail.
    rewrite !list_lookup_fmap, !lookup_seq_ge by lia. reflexivity.
Qed.

Lemma index2_map_eq (f : float -> float) (m : matrix) i j :
  index2 (map (map f) m) i j = t ← index2 m i j; Ok (f t).
Proof.
  unfold index2, index. rewrite !list_lookup_fmap.
  destruct (m !! i) as [row|]; cbn; [|reflexivity].
  rewrite list_lookup_fmap. now destruct (row !! j).
Qed.

Lemma symmetric_evaporatePheromone cfg tau :
  symmetric tau -> symmetric (evaporatePheromone cfg tau).
Proof.
  intros Htau i j. unfold evaporatePheromone. now rewrite !index2_map_eq, Htau.
Qed.

Lemma symmetric_deposit cfg numCities ants i tau c tau' :
  symmetric tau -> deposit cfg numCities ants i tau c = Ok tau' -> symmetric tau'.
Proof.
  unfold deposit. intros Htau H. ok_inv H.
  match goal with
  | Hst : store2 tau ?from ?to ?w = Ok ?tau1,
    Hv : index2 ?tau1 ?from ?to = Ok ?v |- _ =>
      rewrite (index2_store2 _ _ _ _ _ _ _ Hst) in Hv;
      destruct (decide (from = from /\ to = to)) as [_|Hn]; [|exfalso; now apply Hn];
      injection Hv as <-;
      intros x y;
      rewrite !(index2_store2 _ _ _ _ _ _ _ H), !(index2_store2 _ _ _ _ _ _ _ Hst)
  end.
  repeat destruct (decide _); try reflexivity; try tauto; apply Htau.
Qed.

Lemma symmetric_intensifyTrail cfg numCities ants tau tau' :
  symmetric tau -> intensifyTrail cfg numCities ants tau = Ok tau' -> symmetric tau'.
Proof.
  unfold intensifyTrail.
  apply foldM_invariant. intros b i b' _.
  apply foldM_invariant. intros b0 c b0' _. apply symmetric_deposit.
Qed.

Lemma square_deposit cfg numCities ants i tau c tau' :
  square numCities tau -> deposit cfg numCities ants i tau c = Ok tau' ->
  square numCities tau'.
Proof.
  unfold deposit. intros Htau H. ok_inv H.
  match goal with
  | Hst : store2 tau _ _ _ = Ok ?tau1 |- _ =>
      eapply square_store2; [eapply square_store2; [exact Htau|exact Hst]|exact H]
  end.
Qed.

Lemma square_intensifyTrail cfg numCities ants tau tau' :
  square numCities tau -> intensifyTrail cfg numCities ants tau = Ok tau' ->
  square numCities tau'.
Proof.
  unfold intensifyTrail.
  apply foldM_invariant. intros b i b' _.
  apply foldM_invariant. intros b0 c b0' _. apply square_deposit.
Qed.


(** ** What every experiment of a run keeps *)

Section Invariants.

Variable Pow : float -> float -> float.
Variable cfg : config.
Variable numCities : nat.
Variable adjMatrix : matrix.

(** [P] of the pheromone matrix is kept by [evaporatePheromone], and by
    [intensifyTrail] for ants with [Q], which the ants that [moveAnts]
    returns have. *)
Variable P : matrix -> Prop.
Variable Q : ant_t -> Prop.

Hypothesis Q_moveAnts :
  forall tau fuel src ants0 src1 ants src2,
    initAnts cfg numCities src = Ok (ants0, src1) ->
    moveAnts Pow cfg numCities tau adjMatrix fuel ants0 src1 = Ok (ants, src2) ->
    Forall Q ants.
Hypothesis P_intensifyTrail :
  forall ants tau tau',
    Forall Q ants -> P tau -> intensifyTrail cfg numCities ants tau = Ok tau' -> P tau'.
Hypothesis P_evaporatePheromone :
  forall tau, P tau -> P (evaporatePheromone cfg tau).

Lemma round_invariant fuel st st' :
  P (tauMatrix st) -> round Pow cfg numCities adjMatrix fuel st = Ok st' ->
  P (tauMatrix st').
Proof.
  unfold round. intros Hst H. ok_inv H. injection H as <-. cbn.
  eapply P_intensifyTrail; [eapply Q_moveAnts; eassumption|exact Hst|eassumption].
Qed.

Lemma rounds_invariant fuel n st st' :
  P (tauMatrix st) -> rounds Pow cfg numCities adjMatrix fuel n st = Ok st' ->
  P (tauMatrix st').
Proof.
  revert st. induction n as [|n IH]; intros st Hst H.
  - now injection H as <-.
  - simpl in H. ok_inv H. eapply IH; [|exact H]. eapply round_invariant; eauto.
Qed.

Lemma experiment_invariant fuel tau src r tau' src' :
  P tau -> experiment Pow cfg numCities adjMatrix fuel tau src = Ok (r, tau', src') ->
  P (tau_begin r) /\ P (tau_rounds r) /\ P tau'.
Proof.
  unfold experiment. intros Htau H. ok_inv H. injection H as <- <- _. cbn.
  repeat split; auto; [|apply P_evaporatePheromone];
    eapply rounds_invariant; eauto; exact Htau.
Qed.

Lemma experiments_invariant fuel n tau src reports :
  P tau -> experiments Pow cfg numCities adjMatrix fuel n tau src = Ok reports ->
  Forall (fun r => P (tau_begin r) /\ P (tau_rounds r)) reports.
Proof.
  revert tau src reports. induction n as [|n IH]; intros tau src reports Htau H.
  - injection H as <-. constructor.
  - simpl in H. ok_inv H. injection H as <-.
    match goal with
    | He : experiment _ _ _ _ _ _ _ = Ok _ |- _ =>
        destruct (experiment_invariant _ _ _ _ _ _ Htau He) as (Hb & Hr & Hn)
    end.
    constructor; [auto|]. eapply IH; eauto.
Qed.

End Invariants.

(** X9. In every experiment of a run of [main] the pheromone matrix is
    [numCities] by [numCities] and symmetric, when the experiment begins
    and when its rounds are over: [intensifyTrail] writes both directions of
    an edge, and [evaporatePheromone] treats all entries alike. *)
Theorem main_pheromone_symmetric Pow cfg cities fuel src reports :
  main Pow cfg cities fuel src = Ok reports ->
  Forall (fun r =>
            (square (length cities) (tau_begin r) /\
             forall i j, index2 (tau_begin r) i j = index2 (tau_begin r) j i) /\
            (square (length cities) (tau_rounds r) /\
             forall i j, index2 (tau_rounds r) i j = index2 (tau_rounds r) j i))
         reports.
Proof.
  unfold main. intros H.
  eapply (experiments_invariant Pow cfg (length cities) (initGraph Pow cities)
            (fun m => square (length cities) m /\ symmetric m) (fun _ => True));
    [| | | |exact H].
  - intros. apply Forall_forall. auto.
  - intros ants tau tau' _ [Hsq Hsym] Hi.
    split; [eapply square_intensifyTrail|eapply symmetric_intensifyTrail]; eauto.
  - intros tau [Hsq Hsym].
    split; [now apply square_evaporatePheromone|now apply symmetric_evaporatePheromone].
  - split; [apply square_initTrail|apply symmetric_initTrail].
Qed.

Lemma main_pheromone_symmetric_witness :
  exists reports,
    main Pow_special two_experiments two_cities 10 (script []) = Ok reports /\
    Forall (fun r =>
              (square 2 (tau_begin r) /\
               forall i j, index2 (tau_begin r) i j = index2 (tau_begin r) j i) /\
              (square 2 (tau_rounds r) /\
               forall i j, index2 (tau_rounds r) i j = index2 (tau_rounds r) j i))
           reports.
Proof.
  eexists. split; [run|].
  apply (main_pheromone_symmetric Pow_special two_experiments two_cities 10 (script [])).
  run.
Defined.

(** ** The order of [float64] *)

Section Float64Order.

#[local] Open Scope float_scope.

Lemma SFltb_trans a b c : SFltb a b = true -> SFltb b c = true -> SFltb a c = true.
Proof.
  unfold SFltb.
  destruct a as [sa|sa| |sa ma ea], b as [sb|sb| |sb mb eb], c as [sc|sc| |sc mc ec];
    cbn; try discriminate; try reflexivity;
    try (destruct sa; discriminate || reflexivity);
    try (destruct sa, sb; discriminate || reflexivity);
    try (destruct sa, sc; discriminate || reflexivity);
    try (destruct sb, sc; discriminate || reflexivity);
    try (destruct sa, sb, sc; discriminate || reflexivity).
  destruct sa, sb, sc; try discriminate; try reflexivity;
    change (PosDef.Pos.compare_cont Eq) with Pos.compare;
    destruct (Z.compare_spec ea eb), (Z.compare_spec eb ec), (Z.compare_spec ea ec);
    try discriminate; try reflexivity; try lia; subst;
    destruct (Pos.compare_spec ma mb), (Pos.compare_spec mb mc), (Pos.compare_spec ma mc);
    cbn; try discriminate; try reflexivity; try lia.
Qed.

Lemma ltb_trans a b c : (a <? b) = true -> (b <? c) = true -> (a <? c) = true.
Proof. rewrite !FloatAxioms.ltb_spec. apply SFltb_trans. Qed.

End Float64Order.

(** ** The best tour of a round *)

Lemma copy_same_length {A : Type} (dst src : list A) :
  length dst = length src -> copy dst src = src.
Proof.
  intros H. unfold copy. rewrite H, take_ge, drop_ge by lia. apply app_nil_r.
Qed.

Lemma ltb_irrefl (a : float) : (a <? a)%float = false.
Proof.
  rewrite FloatAxioms.ltb_spec. unfold SFltb.
  destruct (Prim2SF a) as [s|[]| |s m e]; try reflexivity.
  now rewrite SFcompare_refl_finite.
Qed.

(** The loop of [calculateBest], entered with [bl] and [bt]; [I] is kept by
    every [copy] into the best tour. *)
Lemma best_fold (I : list nat -> Prop) ants bl bt bl' bt' :
  (forall b ant, I b -> ant ∈ ants -> I (copy b (tour ant))) ->
  I bt ->
  fold_left (fun '(bestlength, besttour) ant =>
               if (tourlength ant <? bestlength)%float
               then (tourlength ant, copy besttour (tour ant))
               else (bestlength, besttour))
            ants (bl, bt) = (bl', bt') ->
  ((bl', bt') = (bl, bt) \/
   (bl' <? bl)%float = true /\
   exists ant b, ant ∈ ants /\ I b /\ tourlength ant = bl' /\ bt' = copy b (tour ant)) /\
  forall ant, ant ∈ ants -> (tourlength ant <? bl')%float = false.
Proof.
  revert bl bt. induction ants as [|a ants IH]; intros bl bt HI Hbt H.
  - injection H as <- <-. split; [now left|]. intros ant Hin. inversion Hin.
  - cbn [fold_left] in H.
    assert (HI' : forall b ant, I b -> ant ∈ ants -> I (copy b (tour ant))).
    { intros b ant Hb Hin. apply HI; [exact Hb|now apply list_elem_of_further]. }
    destruct (tourlength a <? bl)%float eqn:E.
    + apply IH in H as [Hbest Hmin]; [|exact HI'|apply HI; [exact Hbt|apply list_elem_of_here]].
      split.
      * right. destruct Hbest as [[= -> ->]|(Hlt & ant & b & Hin & Hb & Hlen & Htour)].
        -- split; [exact E|]. exists a, bt. split; [apply list_elem_of_here|auto].
        -- split; [exact (ltb_trans _ _ _ Hlt E)|].
           exists ant, b. split; [now apply list_elem_of_further|auto].
      * intros ant [->|Hin]%elem_of_cons; [|now apply Hmin].
        destruct Hbest as [[= -> ->]|(Hlt & _)]; [apply ltb_irrefl|].
        destruct (tourlength a <? bl')%float eqn:E'; [|reflexivity].
        pose proof (ltb_trans _ _ _ E' Hlt) as Hcyc.
        now rewrite ltb_irrefl in Hcyc.
    + apply IH in H as [Hbest Hmin]; [|exact HI'|exact Hbt].
      split.
      * destruct Hbest as [Heq|(Hlt & ant & b & Hin & Hrest)]; [now left|].
        right. split; [exact Hlt|].
        exists ant, b. split; [now apply list_elem_of_further|auto].
      * intros ant [->|Hin]%elem_of_cons; [|now apply Hmin].
        destruct Hbest as [[= -> ->]|(Hlt & _)]; [exact E|].
        destruct (tourlength a <? bl')%float eqn:E'; [|reflexivity].
        rewrite (ltb_trans _ _ _ E' Hlt) in E. discriminate.
Qed.

Lemma calculateBest_inv numCities ants besttour0 best besttour' :
  calculateBest numCities ants besttour0 = Ok (best, besttour') ->
  (forall ant, ant ∈ ants -> (tourlength ant <? best)%float = false) /\
  exists ant, ant ∈ ants /\ tourlength ant = best /\
    (besttour0 = None ->
     Forall (fun ant => length (tour ant) = numCities) ants ->
     tour ant = besttour').
Proof.
  intros H. unfold calculateBest in H. ok_inv H. injection H as H.
  match goal with Hi : index ants 0 = Ok ?ant0 |- _ =>
    apply index_Ok in Hi; rename Hi into H0; rename ant0 into first end.
  assert (Hfirst : first ∈ ants) by (eapply list_elem_of_lookup_2; eauto).
  destruct besttour0 as [b|].
  - apply (best_fold (fun _ => True)) in H as [Hbest Hmin]; auto.
    split; [exact Hmin|].
    destruct Hbest as [[= -> _]|(_ & ant & _ & Hin & _ & Hl & _)].
    + exists first. repeat split; auto. discriminate.
    + exists ant. repeat split; auto. discriminate.
  - destruct (decide (Forall (fun ant => length (tour ant) = numCities) ants))
      as [Hants|Hants].
    + pose proof Hants as Hall. rewrite Forall_forall in Hall.
      apply (best_fold (fun b => length b = numCities)) in H as [Hbest Hmin].
      * split; [exact Hmin|].
        destruct Hbest as [[= -> ->]|(_ & ant & b & Hin & Hb & Hl & ->)].
        -- exists first. repeat split; auto. intros _ _.
           rewrite copy_same_length; [reflexivity|].
           rewrite length_replicate. symmetry. auto.
        -- exists ant. repeat split; auto. intros _ _.
           rewrite copy_same_length; [reflexivity|]. rewrite Hb. symmetry. auto.
      * intros b ant Hb Hin. rewrite copy_same_length; [auto|]. rewrite Hb. symmetry. auto.
      * rewrite copy_same_length; [auto|]. rewrite length_replicate. symmetry. auto.
    + apply (best_fold (fun _ => True)) in H as [Hbest Hmin]; auto.
      split; [exact Hmin|].
      destruct Hbest as [[= -> _]|(_ & ant & _ & Hin & _ & Hl & _)].
      * exists first. repeat split; auto. tauto.
      * exists ant. repeat split; auto. tauto.
Qed.

(** X10. What [calculateBest] returns is the least tour length of the
    round: it is the length of one of the ants, and no ant has a length
    below it. *)
Theorem calculateBest_least numCities ants besttour0 best besttour' :
  calculateBest numCities ants besttour0 = Ok (best, besttour') ->
  (exists ant, ant ∈ ants /\ tourlength ant = best) /\
  forall ant, ant ∈ ants -> (tourlength ant <? best)%float = false.
Proof.
  intros (Hmin & ant & Hin & Hl & _)%calculateBest_inv. eauto.
Qed.

Lemma calculateBest_least_witness :
  exists best besttour',
    calculateBest 2 [done_ant; mkAnt [1; 1] 1 1 [0; 1] 2 2%float] (Some [1; 0])
    = Ok (best, besttour') /\
    best = 2%float /\
    (exists ant, ant ∈ [done_ant; mkAnt [1; 1] 1 1 [0; 1] 2 2%float] /\
                 tourlength ant = best) /\
    forall ant, ant ∈ [done_ant; mkAnt [1; 1] 1 1 [0; 1] 2 2%float] ->
                (tourlength ant <? best)%float = false.
Proof.
  eexists _, _. split; [run|]. split; [reflexivity|].
  eapply (calculateBest_least 2 [done_ant; mkAnt [1; 1] 1 1 [0; 1] 2 2%float] (Some [1; 0])).
  run.
Defined.

(** X11. In the first round of an experiment ([besttour] is nil) the tour
    that [calculateBest] leaves in [besttour] is the tour of an ant whose
    length is the least of the round (every tour has [numCities]
    entries). *)
Theorem calculateBest_first_round numCities ants best besttour' :
  Forall (fun ant => length (tour ant) = numCities) ants ->
  calculateBest numCities ants None = Ok (best, besttour') ->
  exists ant, ant ∈ ants /\ tourlength ant = best /\ tour ant = besttour'.
Proof.
  intros Hants (_ & ant & Hin & Hl & Ht)%calculateBest_inv. eauto.
Qed.

Lemma calculateBest_first_round_witness :
  exists best besttour',
    calculateBest 2 [done_ant; mkAnt [1; 1] 1 1 [0; 1] 2 2%float] None
    = Ok (best, besttour') /\
    besttour' = [0; 1] /\
    exists ant, ant ∈ [done_ant; mkAnt [1; 1] 1 1 [0; 1] 2 2%float] /\
                tourlength ant = best /\ tour ant = besttour'.
Proof.
  eexists _, _. split; [run|]. split; [reflexivity|].
  apply (calculateBest_first_round 2 [done_ant; mkAnt [1; 1] 1 1 [0; 1] 2 2%float]).
  - repeat constructor.
  - run.
Defined.

(** ** The tour that an experiment reports *)

Lemma calculateBest_tour numCities ants besttour0 best besttour' :
  Forall (fun ant => length (tour ant) = numCities) ants ->
  (forall b, besttour0 = Some b -> length b = numCities) ->
  calculateBest numCities ants besttour0 = Ok (best, besttour') ->
  besttour0 = Some besttour' \/ exists ant, ant ∈ ants /\ tour ant = besttour'.
Proof.
  intros Hants Hb0 H. unfold calculateBest in H. ok_inv H. injection H as H.
  match goal with Hi : index ants 0 = Ok ?ant0 |- _ =>
    apply index_Ok in Hi; rename Hi into H0; rename ant0 into first end.
  assert (Hfirst : first ∈ ants) by (eapply list_elem_of_lookup_2; eauto).
  pose proof Hants as Hall. rewrite Forall_forall in Hall.
  assert (Hcopy : forall b ant, length b = numCities -> ant ∈ ants ->
                                copy b (tour ant) = tour ant).
  { intros b ant Hb Hin. apply copy_same_length. rewrite Hb. symmetry. auto. }
  apply (best_fold (fun b => length b = numCities)) in H as [Hbest _].
  - destruct Hbest as [[= _ ->]|(_ & ant & b & Hin & Hb & _ & ->)].
    + destruct besttour0 as [b|]; [now left|]. right. exists first.
      split; [exact Hfirst|]. symmetry. apply Hcopy; [apply length_replicate|exact Hfirst].
    + right. exists ant. split; [exact Hin|]. symmetry. now apply Hcopy.
  - intros b ant Hb Hin. rewrite Hcopy; auto.
  - destruct besttour0 as [b|]; [now apply Hb0|].
    rewrite Hcopy; [auto|apply length_replicate|exact Hfirst].
Qed.

Section Reported.

Variable Pow : float -> float -> float.
Variable cfg : config.
Variable numCities : nat.
Variable adjMatrix : matrix.

Lemma moved_permutations tau fuel src ants0 src1 ants src2 :
  initAnts cfg numCities src = Ok (ants0, src1) ->
  moveAnts Pow cfg numCities tau adjMatrix fuel ants0 src1 = Ok (ants, src2) ->
  Forall (fun ant => tour ant ≡ₚ seq 0 numCities) ants.
Proof.
  intros Hinit Hmove. apply initAnts_loop_new in Hinit.
  eapply moveAnts_Forall; [|exact Hinit|exact Hmove].
  intros ant s ant' s' [c ->] H.
  apply visiting_all.
  pose proof (moveAnt_visiting _ _ _ _ _ _ _ _ _ _ _ _ (visiting_new numCities c) H) as Hv.
  now rewrite Nat.add_0_r in Hv.
Qed.

Lemma permutation_length (t : list nat) : t ≡ₚ seq 0 numCities -> length t = numCities.
Proof. intros H. rewrite H. apply length_seq. Qed.

(** What a round keeps: every ant moved so far carries a permutation, and
    the best tour, once there is one, is the tour of one of them. *)
Lemma round_besttour fuel st st' :
  round Pow cfg numCities adjMatrix fuel st = Ok st' ->
  Forall (fun ant => tour ant ≡ₚ seq 0 numCities) (moved st) ->
  (forall b, besttour st = Some b -> exists ant, ant ∈ moved st /\ tour ant = b) ->
  Forall (fun ant => tour ant ≡ₚ seq 0 numCities) (moved st') /\
  exists ant, ant ∈ moved st' /\ besttour st' = Some (tour ant).
Proof.
  unfold round. intros H Hmoved Hbest. ok_inv H. injection H as <-. cbn.
  match goal with
  | Hi : initAnts _ _ _ = Ok _, Hm : moveAnts _ _ _ _ _ _ _ _ = Ok (?ants, _),
    Hc : calculateBest _ _ _ = Ok _ |- _ =>
      pose proof (moved_permutations _ _ _ _ _ _ _ Hi Hm) as Hperm;
      apply calculateBest_tour in Hc as [Hold|(ant & Hin & <-)]
  end.
  - split; [now apply Forall_app|].
    destruct (Hbest _ Hold) as (ant & Hin & <-).
    exists ant. split; [apply elem_of_app; now left|reflexivity].
  - split; [now apply Forall_app|].
    exists ant. split; [apply elem_of_app; now right|reflexivity].
  - eapply Forall_impl; [exact Hperm|]. intros ant. apply permutation_length.
  - intros b Hb. destruct (Hbest _ Hb) as (ant & Hin & <-).
    rewrite Forall_forall in Hmoved. apply permutation_length. auto.
Qed.

Lemma rounds_besttour fuel n st st' :
  rounds Pow cfg numCities adjMatrix fuel n st = Ok st' ->
  Forall (fun ant => tour ant ≡ₚ seq 0 numCities) (moved st) ->
  (forall b, besttour st = Some b -> exists ant, ant ∈ moved st /\ tour ant = b) ->
  Forall (fun ant => tour ant ≡ₚ seq 0 numCities) (moved st') /\
  (forall b, besttour st' = Some b -> exists ant, ant ∈ moved st' /\ tour ant = b) /\
  (0 < n -> exists b, besttour st' = Some b).
Proof.
  revert st. induction n as [|n IH]; intros st H Hmoved Hbest.
  - injection H as <-. repeat split; auto. lia.
  - simpl in H. ok_inv H.
    match goal with
    | Hr : round _ _ _ _ _ _ = Ok ?st1 |- _ =>
        destruct (round_besttour _ _ _ Hr Hmoved Hbest) as (Hmoved1 & ant & Hin & Hb1);
        destruct (IH st1 H Hmoved1) as (Hmoved' & Hbest' & _)
    end.
    + intros b Hb. rewrite Hb1 in Hb. injection Hb as <-. eauto.
    + repeat split; auto. intros _.
      destruct n as [|n]; [injection H as <-; eauto|].
      match goal with
      | Hr : round _ _ _ _ _ _ = Ok ?st1 |- _ =>
          destruct (IH st1 H Hmoved1) as (_ & _ & Hsome)
      end.
      * intros b Hb. rewrite Hb1 in Hb. injection Hb as <-. eauto.
      * apply Hsome. lia.
Qed.

Lemma experiments_besttour fuel n tau src reports :
  0 < tours cfg ->
  experiments Pow cfg numCities adjMatrix fuel n tau src = Ok reports ->
  Forall (fun r => exists ant, ant ∈ ants_moved r /\
                               optimal_path r = Some (tour ant) /\
                               tour ant ≡ₚ seq 0 numCities) reports.
Proof.
  intros Htours. revert tau src reports. induction n as [|n IH]; intros tau src reports H.
  - injection H as <-. constructor.
  - simpl in H. ok_inv H. injection H as <-.
    constructor; [|eauto].
    match goal with
    | He : experiment _ _ _ _ _ _ _ = Ok _ |- _ =>
        unfold experiment in He; ok_inv He; injection He as <- _ _
    end.
    cbn.
    match goal with
    | Hr : rounds _ _ _ _ _ _ _ = Ok ?st |- _ =>
        destruct (rounds_besttour _ _ _ _ Hr) as (Hmoved & Hbest & Hsome);
        [constructor|discriminate|]
    end.
    destruct (Hsome Htours) as [b Hb]. destruct (Hbest b Hb) as (ant & Hin & <-).
    exists ant. repeat split; auto. rewrite Forall_forall in Hmoved. auto.
Qed.

End Reported.

(** X12. The best tour that an experiment reports is the tour of one of
    the ants that the experiment has moved, and so a permutation of the
    cities: a tour that visits every city once. *)
Theorem main_reports_a_tour Pow cfg cities fuel src reports :
  0 < tours cfg ->
  main Pow cfg cities fuel src = Ok reports ->
  Forall (fun r => exists ant, ant ∈ ants_moved r /\
                               optimal_path r = Some (tour ant) /\
                               tour ant ≡ₚ seq 0 (length cities)) reports.
Proof.
  intros Htours H. unfold main in H.
  eapply experiments_besttour; eauto.
Qed.

Lemma main_reports_a_tour_witness :
  exists reports,
    main Pow_special two_experiments two_cities 10 (script []) = Ok reports /\
    map optimal_path reports = [Some [1; 0]; Some [1; 0]] /\
    Forall (fun r => exists ant, ant ∈ ants_moved r /\
                                 optimal_path r = Some (tour ant) /\
                                 tour ant ≡ₚ seq 0 (length two_cities)) reports.
Proof.
  eexists. split; [run|]. split; [reflexivity|].
  apply (main_reports_a_tour Pow_special two_experiments two_cities 10 (script []));
    [cbn; lia|run].
Defined.

(** ** A selection that returns *)

Section FirstCandidate.

Variable Pow : float -> float -> float.
Variable cfg : config.
Variable numCities : nat.
Variables tauMatrix adjMatrix : matrix.
Variable ant : ant_t.
Variable to : nat.
Variables denom t a : float.

Hypothesis ant_roaming : roaming numCities ant.
Hypothesis adj_square : square numCities adjMatrix.
Hypothesis to_city : to < numCities.
Hypothesis to_other : to <> currentCity ant.
Hypothesis to_unvisited : tabulist ant !! to = Some 0.
Hypothesis to_first :
  forall k, k < to -> k <> currentCity ant -> tabulist ant !! k <> Some 0.
Hypothesis to_tau : index2 tauMatrix (currentCity ant) to = Ok t.
Hypothesis to_adj : index2 adjMatrix (currentCity ant) to = Ok a.

Lemma scan_first_candidate fuel k src :
  k <= to -> to - k < fuel ->
  (float64_at src (calls src) <? desirability Pow cfg t a / denom)%float = true ->
  scan Pow cfg numCities tauMatrix adjMatrix ant (currentCity ant) denom fuel k src
  = Ok (to, advance src).
Proof.
  intros Hk Hfuel Hdraw. destruct ant_roaming as (_ & Htabu & _).
  unfold desirability in Hdraw.
  revert k Hk Hfuel. induction fuel as [|fuel IH]; intros k Hk Hfuel; [lia|].
  cbn -[modulo].
  destruct (decide (k = to)) as [->|Hne].
  - destruct (Nat.eqb_spec (currentCity ant) to) as [E|_]; [congruence|]. cbn.
    unfold index at 1. rewrite to_unvisited. cbn.
    rewrite to_tau. cbn. rewrite to_adj. cbn. now rewrite Hdraw.
  - assert (Hnext : modulo (k + 1) numCities = Ok (k + 1)).
    { apply modulo_Ok. split; [lia|]. symmetry. apply Nat.mod_small. lia. }
    assert (Hrec : scan Pow cfg numCities tauMatrix adjMatrix ant (currentCity ant)
                     denom fuel (k + 1) src = Ok (to, advance src))
      by (apply IH; lia).
    destruct (Nat.eqb_spec (currentCity ant) k) as [E|E]; cbn -[modulo].
    + rewrite Hnext. cbn. exact Hrec.
    + destruct (index_lt (tabulist ant) k) as [tb Htb]; [lia|].
      rewrite Htb. cbn -[modulo].
      destruct (Nat.eqb_spec tb 0) as [->|_].
      * apply index_Ok in Htb. exfalso. apply (to_first k); [lia|congruence|exact Htb].
      * rewrite Hnext. cbn. exact Hrec.
Qed.

Lemma goToNewCity_first_candidate fuel src :
  tourIndex ant < numCities ->
  denominator Pow cfg numCities tauMatrix adjMatrix ant (currentCity ant) = Ok denom ->
  (float64_at src (calls src) <? desirability Pow cfg t a / denom)%float = true ->
  to < fuel ->
  exists len,
    goToNewCity Pow cfg numCities tauMatrix adjMatrix fuel ant src
    = Ok (mkAnt (<[to := 1]> (tabulist ant)) to to
                (<[tourIndex ant := to]> (tour ant)) (S (tourIndex ant)) len,
          advance src).
Proof.
  intros Hidx Hden Hdraw Hfuel. pose proof ant_roaming as (Hcur & Htabu & Htour & Hin).
  unfold goToNewCity. rewrite Hden. cbn -[Nat.eqb].
  rewrite scan_first_candidate by (auto; lia). cbn -[Nat.eqb].
  unfold store. destruct (Nat.ltb_spec to (length (tabulist ant))) as [_|?]; [|lia].
  destruct (Nat.ltb_spec (tourIndex ant) (length (tour ant))) as [_|?]; [|lia].
  cbn -[Nat.eqb]. rewrite to_adj. cbn -[Nat.eqb].
  destruct (S (tourIndex ant) =? numCities); [|cbn; eauto].
  assert (Hin' : Forall (fun c => c < numCities) (<[tourIndex ant := to]> (tour ant)))
    by now apply Forall_insert.
  rewrite Forall_lookup in Hin'.
  destruct (index_lt (<[tourIndex ant := to]> (tour ant)) (numCities - 1))
    as [last Hlast]; [rewrite length_insert; lia|].
  destruct (index_lt (<[tourIndex ant := to]> (tour ant)) 0)
    as [first Hfirst]; [rewrite length_insert; lia|].
  rewrite Hlast. cbn. rewrite Hfirst. cbn.
  apply index_Ok in Hlast, Hfirst.
  destruct (index2_square numCities adjMatrix last first) as [closing ->];
    [exact adj_square|eauto|eauto|].
  cbn. eauto.
Qed.

End FirstCandidate.

(** X13. The lowest-numbered city an ant may still visit is taken at
    once, with one random number used, when that number is below the
    probability of the city: the cities are tried in the order of their
    numbers, each against a draw of its own. *)
Theorem goToNewCity_takes_first_candidate
  Pow cfg numCities tauMatrix adjMatrix ant to denom t a fuel src :
  roaming numCities ant ->
  tourIndex ant < numCities ->
  square numCities adjMatrix ->
  to < numCities ->
  to <> currentCity ant ->
  tabulist ant !! to = Some 0 ->
  (forall k, k < to -> k <> currentCity ant -> tabulist ant !! k <> Some 0) ->
  index2 tauMatrix (currentCity ant) to = Ok t ->
  index2 adjMatrix (currentCity ant) to = Ok a ->
  denominator Pow cfg numCities tauMatrix adjMatrix ant (currentCity ant) = Ok denom ->
  (float64_at src (calls src) <? desirability Pow cfg t a / denom)%float = true ->
  to < fuel ->
  exists len,
    goToNewCity Pow cfg numCities tauMatrix adjMatrix fuel ant src
    = Ok (mkAnt (<[to := 1]> (tabulist ant)) to to
                (<[tourIndex ant := to]> (tour ant)) (S (tourIndex ant)) len,
          advance src).
Proof.
  intros. eapply goToNewCity_first_candidate; eauto.
Qed.

Lemma goToNewCity_takes_first_candidate_witness :
  exists len,
    goToNewCity Pow_special linear 4 (initTrail 4) (initGraph Pow_special four_cities)
                20 (new_ant 4 2) (script [Float64 0])
    = Ok (mkAnt [1; 0; 0; 0] 0 0 [0; 0; 0; 0] 1 len, advance (script [Float64 0])).
Proof.
  eapply (goToNewCity_takes_first_candidate Pow_special linear 4 (initTrail 4)
            (initGraph Pow_special four_cities) (new_ant 4 2) 0 _ _ _ 20
            (script [Float64 0])).
  - unfold roaming. cbn. repeat split; try lia. repeat constructor.
  - cbn. lia.
  - apply (square_initGraph Pow_special four_cities).
  - lia.
  - discriminate.
  - reflexivity.
  - intros k Hk. lia.
  - run.
  - run.
  - run.
  - vm_compute. reflexivity.
  - lia.
Defined.

(** ** Signs *)

Section Float64Sign.

#[local] Open Scope float_scope.

Lemma get_sign_SF (v : float) : get_sign v = false <-> unsigned_SF (Prim2SF v).
Proof.
  unfold get_sign, is_zero. rewrite FloatAxioms.eqb_spec.
  change (Prim2SF zero) with (S754_zero false).
  destruct (Prim2SF v) as [s|s| |s m e] eqn:E; cbn.
  - rewrite FloatAxioms.ltb_spec, div_spec, E.
    change (Prim2SF one) with (Prim2SF 1). destruct s; cbn; intuition discriminate.
  - destruct s; cbn; rewrite FloatAxioms.ltb_spec, E; cbn; intuition discriminate.
  - rewrite FloatAxioms.ltb_spec, E. cbn. tauto.
  - destruct s; cbn; rewrite FloatAxioms.ltb_spec, E; cbn; intuition discriminate.
Qed.

Lemma unsigned_nonneg s : unsigned_SF s -> nonneg_SF s.
Proof. destruct s as [[]|[]| |[] m e]; cbn; tauto. Qed.

Lemma get_sign_not_neg (v : float) : get_sign v = false -> (v <? 0) = false.
Proof. rewrite get_sign_SF, not_neg_SF. apply unsigned_nonneg. Qed.

Lemma binary_round_aux_unsigned mx ex lx :
  unsigned_SF (binary_round_aux prec emax false mx ex lx).
Proof.
  unfold binary_round_aux.
  destruct (shr_fexp prec emax mx ex lx) as [mrs' e'].
  destruct (shr_fexp prec emax _ e' loc_Exact) as [mrs'' e''].
  destruct (shr_m mrs''); cbn; auto.
  destruct (Z.leb e'' (emax - prec)); cbn; auto.
Qed.

Lemma add_unsigned (a b : float) :
  get_sign a = false -> get_sign b = false -> get_sign (a + b) = false.
Proof.
  rewrite !get_sign_SF, add_spec.
  destruct (Prim2SF a) as [[]|[]| |[] ma ea], (Prim2SF b) as [[]|[]| |[] mb eb];
    cbn; try tauto.
  intros _ _. rewrite <- Pos2Z.inj_add. unfold binary_normalize, binary_round.
  destruct (shl_align (_ + _) _ _) as [mz ez]. apply binary_round_aux_unsigned.
Qed.

Lemma div_unsigned (a b : float) :
  get_sign a = false -> get_sign b = false -> get_sign (a / b) = false.
Proof.
  rewrite !get_sign_SF, div_spec.
  destruct (Prim2SF a) as [[]|[]| |[] ma ea], (Prim2SF b) as [[]|[]| |[] mb eb];
    cbn; try tauto.
  intros _ _. destruct (SFdiv_core_binary _ _ _ _ _ _) as [[mz ez] lz].
  apply binary_round_aux_unsigned.
Qed.

Lemma mul_not_neg (a b : float) :
  (a <? 0) = false -> (b <? 0) = false -> (a * b <? 0) = false.
Proof.
  rewrite !not_neg_SF, mul_spec.
  destruct (Prim2SF a) as [sa|[]| |[] ma ea], (Prim2SF b) as [sb|[]| |[] mb eb];
    cbn; try tauto.
  intros _ _. apply binary_round_aux_nonneg.
Qed.

End Float64Sign.

Section PowSpecialSign.

#[local] Open Scope float_scope.

Lemma sqrt_unsigned (v : float) : (v =? 0) = false -> get_sign (PrimFloat.sqrt v) = false.
Proof.
  rewrite get_sign_SF, FloatAxioms.eqb_spec, sqrt_spec.
  change (Prim2SF 0) with (S754_zero false).
  destruct (Prim2SF v) as [s|[]| |[] m e]; cbn; try tauto; try discriminate.
  intros _. unfold SF64sqrt, SFsqrt.
  destruct (SFsqrt_core_binary _ _ _ _) as [[mz ez] lz].
  apply binary_round_aux_unsigned.
Qed.

(** [Pow_special] gives no root with the sign bit set. *)
Lemma Pow_special_root_unsigned (v : float) : get_sign (Pow_special v 0.5) = false.
Proof.
  unfold Pow_special, Pow_zero.
  change (0.5 =? 0) with false. change (0.5 =? 1) with false.
  change (is_nan 0.5) with false. change (is_infinity 0.5) with false.
  change (0.5 =? 0.5) with true. change (0.5 <? 0) with false.
  change (- (0.5) <? 0) with true.
  change (isOddInt 0.5) with false. change (isOddInt (- (0.5))) with false.
  rewrite !andb_false_r, orb_false_r. cbn [orb].
  destruct (v =? 1); [reflexivity|].
  destruct (is_nan v); [reflexivity|].
  destruct (v =? 0) eqn:E; [reflexivity|].
  destruct (is_infinity v).
  - now destruct (v =? neg_infinity).
  - now apply sqrt_unsigned.
Qed.

End PowSpecialSign.

(** ** Pheromone in a run of [main] *)

Lemma index2_initGraph_inv Pow cities i j e :
  index2 (initGraph Pow cities) i j = Ok e ->
  exists ci cj, e = calEdge Pow ci cj.
Proof.
  unfold index2, index, initGraph. rewrite list_lookup_fmap.
  destruct (cities !! i) as [ci|]; cbn; [|discriminate].
  rewrite list_lookup_fmap. destruct (cities !! j) as [cj|]; cbn; [|discriminate].
  intros [= <-]. eauto.
Qed.

Lemma walk_unsigned (adj : matrix) :
  (forall i j e, index2 adj i j = Ok e -> get_sign e = false) ->
  forall path acc v,
    get_sign acc = false -> walk adj acc path = Ok v -> get_sign v = false.
Proof.
  intros Hadj path. induction path as [|a [|b rest] IH]; intros acc v Hacc H.
  - now injection H as <-.
  - now injection H as <-.
  - cbn [walk] in H. apply bind_Ok in H as (e & He & H).
    eapply IH; [|exact H]. apply add_unsigned; eauto.
Qed.

Section Deposits.

Variable Pow : float -> float -> float.
Variable cfg : config.
Variable cities : list city.

Hypothesis Pow_root_unsigned : forall v, get_sign (Pow v 0.5) = false.
Hypothesis qval_unsigned : get_sign (qval cfg) = false.

Lemma moved_unsigned tau fuel src ants0 src1 ants src2 :
  initAnts cfg (length cities) src = Ok (ants0, src1) ->
  moveAnts Pow cfg (length cities) tau (initGraph Pow cities) fuel ants0 src1
  = Ok (ants, src2) ->
  Forall (fun ant => (qval cfg / tourlength ant <? 0)%float = false) ants.
Proof.
  intros Hinit Hmove. apply initAnts_loop_new in Hinit.
  eapply moveAnts_Forall; [|exact Hinit|exact Hmove].
  intros ant s ant' s' [c ->] H. cbn.
  apply moveAnt_tourlength in H.
  apply get_sign_not_neg, div_unsigned; [exact qval_unsigned|].
  eapply walk_unsigned; [| |exact H]; [|reflexivity].
  intros i j e (ci & cj & ->)%index2_initGraph_inv. apply Pow_root_unsigned.
Qed.

Lemma main_not_negative fuel src reports :
  main Pow cfg cities fuel src = Ok reports ->
  Forall (fun r => not_negative (tau_begin r) /\ not_negative (tau_rounds r)) reports.
Proof.
  unfold main. intros H.
  eapply (experiments_invariant Pow cfg (length cities) (initGraph Pow cities)
            not_negative (fun ant => (qval cfg / tourlength ant <? 0)%float = false));
    [| | | |exact H].
  - apply moved_unsigned.
  - intros ants tau tau' Hants Htau Hi.
    eapply not_negative_intensifyTrail; [|exact Htau|exact Hi].
    now apply Forall_forall.
  - intros tau _. apply not_negative_evaporate.
  - apply not_negative_initTrail.
Qed.

End Deposits.

Lemma evaporate_entry_keeps cfg t :
  (1 - rho cfg <? 0)%float = false -> (t <? 0)%float = false ->
  evaporate_entry cfg t = (t * (1 - rho cfg))%float.
Proof.
  intros Hrho Ht. unfold evaporate_entry.
  now rewrite (mul_not_neg _ _ Ht Hrho).
Qed.

(** X14. In a run of [main] no entry of the pheromone matrix is ever below
    zero, when an experiment begins and when its rounds are over, provided
    [qval] has no sign and [math.Pow] gives no negative root: the lengths
    of the tours are sums of roots, and the deposits are [qval] over them. *)
Theorem main_pheromone_not_negative Pow cfg cities fuel src reports :
  (forall v, get_sign (Pow v 0.5%float) = false) ->
  get_sign (qval cfg) = false ->
  main Pow cfg cities fuel src = Ok reports ->
  Forall (fun r =>
            (forall i j v, index2 (tau_begin r) i j = Ok v -> (v <? 0)%float = false) /\
            (forall i j v, index2 (tau_rounds r) i j = Ok v -> (v <? 0)%float = false))
         reports.
Proof.
  intros HPow Hq H.
  eapply Forall_impl; [exact (main_not_negative Pow cfg cities HPow Hq fuel src reports H)|].
  intros r [Hb Hr]. split; intros i j v; now apply not_negative_index2.
Qed.

Lemma main_pheromone_not_negative_witness :
  exists reports,
    main Pow_special two_experiments two_cities 10 (script []) = Ok reports /\
    Forall (fun r =>
              (forall i j v, index2 (tau_begin r) i j = Ok v -> (v <? 0)%float = false) /\
              (forall i j v, index2 (tau_rounds r) i j = Ok v -> (v <? 0)%float = false))
           reports.
Proof.
  eexists. split; [run|].
  apply (main_pheromone_not_negative Pow_special two_experiments two_cities 10 (script [])).
  - exact Pow_special_root_unsigned.
  - reflexivity.
  - run.
Defined.

(** X15. When [1 - rho] is not below zero the reset of [evaporatePheromone]
    is never taken in a run of [main]: what it does to the matrix an experiment ends
    with is to multiply every entry by [1 - rho] ([qval] has no sign and
    [math.Pow] gives no negative root). *)
Theorem evaporation_never_resets Pow cfg cities fuel src reports :
  (forall v, get_sign (Pow v 0.5%float) = false) ->
  get_sign (qval cfg) = false ->
  (1 - rho cfg <? 0)%float = false ->
  main Pow cfg cities fuel src = Ok reports ->
  Forall (fun r =>
            evaporatePheromone cfg (tau_rounds r)
            = map (map (fun t => t * (1 - rho cfg))%float) (tau_rounds r))
         reports.
Proof.
  intros HPow Hq Hrho H.
  eapply Forall_impl; [exact (main_not_negative Pow cfg cities HPow Hq fuel src reports H)|].
  intros r [_ Hr]. unfold evaporatePheromone.
  apply map_ext_Forall. eapply Forall_impl; [exact Hr|].
  intros row Hrow. apply map_ext_Forall. eapply Forall_impl; [exact Hrow|].
  intros t Ht. now apply evaporate_entry_keeps.
Qed.

Lemma evaporation_never_resets_witness :
  exists reports,
    main Pow_special two_experiments two_cities 10 (script []) = Ok reports /\
    Forall (fun r =>
              evaporatePheromone two_experiments (tau_rounds r)
              = map (map (fun t => t * (1 - rho two_experiments))%float) (tau_rounds r))
           reports.
Proof.
  eexists. split; [run|].
  apply (evaporation_never_resets Pow_special two_experiments two_cities 10 (script [])).
  - exact Pow_special_root_unsigned.
  - reflexivity.
  - reflexivity.
  - run.
Defined.

(** ** A run without rounds *)

Lemma experiments_without_tours Pow cfg numCities adjMatrix fuel n tau src :
  tours cfg = 0 ->
  exists reports,
    experiments Pow cfg numCities adjMatrix fuel n tau src = Ok reports /\
    length reports = n /\
    Forall (fun r => ants_moved r = [] /\ optimal_path r = None /\
                     is_nan (avgavg r) = true /\ is_nan (avgbest r) = true) reports.
Proof.
  intros Htours. revert tau src. induction n as [|n IH]; intros tau src.
  - exists []. repeat split; constructor.
  - destruct (IH (evaporatePheromone cfg tau) src) as (reports & Hrun & Hlen & Hall).
    eexists. cbn [experiments]. unfold experiment. rewrite Htours.
    cbn [rounds mbind result_bind tauMatrix rand besttour moved avgtourlen besttourlen].
    rewrite Hrun. cbn [mbind result_bind].
    split; [reflexivity|]. split; [cbn; now rewrite Hlen|].
    constructor; [|exact Hall]. cbn. repeat split; reflexivity.
Qed.

(** X16. With [tours] equal to 0 no ant is set up or moved: [main] comes to
    its end even without a city, every experiment reports a nil best tour,
    and both of its averages are 0/0, which is NaN. *)
Theorem main_without_tours Pow cfg cities fuel src :
  tours cfg = 0 ->
  exists reports,
    main Pow cfg cities fuel src = Ok reports /\
    length reports = times cfg /\
    Forall (fun r => ants_moved r = [] /\ optimal_path r = None /\
                     is_nan (avgavg r) = true /\ is_nan (avgbest r) = true) reports.
Proof. intros Htours. now apply experiments_without_tours. Qed.

Lemma main_without_tours_witness :
  exists reports,
    main Pow_special (mkConfig 0.6 1.0 0.8 0.8 10 10 0) [] 0 (script []) = Ok reports /\
    length reports = 10 /\
    Forall (fun r => ants_moved r = [] /\ optimal_path r = None /\
                     is_nan (avgavg r) = true /\ is_nan (avgbest r) = true) reports.
Proof.
  apply (main_without_tours Pow_special (mkConfig 0.6 1.0 0.8 0.8 10 10 0) [] 0 (script [])).
  reflexivity.
Defined.

(** * Properties of reading the file *)

(** ** Splitting a line *)

Section Splitting.

Variable sep : Ascii.ascii.

#[local] Abbreviation one := (String.String sep String.EmptyString).

Lemma Contains_cons c s :
  Contains (String.String c s) one = false <-> c <> sep /\ Contains s one = false.
Proof.
  cbn. destruct (Ascii.ascii_dec sep c) as [->|Hne].
  - destruct s; cbn; intuition congruence.
  - cbn. intuition congruence.
Qed.

Lemma Split_without s : Contains s one = false -> Split s sep = [s].
Proof.
  induction s as [|c s IH]; [reflexivity|].
  intros [Hc Hs]%Contains_cons. cbn.
  apply Ascii.eqb_neq in Hc. rewrite Hc, IH by exact Hs. reflexivity.
Qed.

Lemma Split_append a b :
  Contains a one = false ->
  Split (String.append a (String.String sep b)) sep = a :: Split b sep.
Proof.
  induction a as [|c a IH].
  - intros _. cbn. now rewrite Ascii.eqb_refl.
  - intros [Hc Ha]%Contains_cons. cbn.
    apply Ascii.eqb_neq in Hc. rewrite Hc, IH by exact Ha. reflexivity.
Qed.

(** The parts of a line that was put together from parts without the
    separator are these parts. *)
Lemma Split_concat part parts :
  Forall (fun p => Contains p one = false) (part :: parts) ->
  Split (String.concat one (part :: parts)) sep = part :: parts.
Proof.
  revert part. induction parts as [|p parts IH]; intros part Hall.
  - cbn. apply Split_without. now inversion Hall.
  - inversion Hall as [|? ? Hpart Hrest]; subst.
    change (String.concat one (part :: p :: parts))
      with (String.append part (String.String sep (String.concat one (p :: parts)))).
    rewrite Split_append by exact Hpart. now rewrite IH.
Qed.

End Splitting.

(** ** [getDim], [tokenize] and [readFile] *)

Section ReadingFacts.

Variable Atoi : String.string -> option Z.
Variable ParseFloat : String.string -> option float.

#[local] Abbreviation getDim := (getDim Atoi).
#[local] Abbreviation tokenize := (tokenize ParseFloat).
#[local] Abbreviation readFile := (readFile Atoi ParseFloat).

Lemma scan_dimension_none lines :
  Forall (fun l => Contains l "DIMENSION" = false) lines ->
  scan_dimension Atoi lines = Returns (0%Z, []).
Proof.
  induction 1 as [|l lines Hl _ IH]; [reflexivity|]. cbn. now rewrite Hl.
Qed.

Lemma scan_dimension_first header dimline rest :
  Forall (fun l => Contains l "DIMENSION" = false) header ->
  Contains dimline "DIMENSION" = true ->
  scan_dimension Atoi (header ++ dimline :: rest) = dim ← getDim dimline; Returns (dim, rest).
Proof.
  intros Hh Hd. induction Hh as [|l header Hl _ IH]; cbn.
  - now rewrite Hd.
  - now rewrite Hl.
Qed.

Lemma put_Returns {A : Type} (s s' : list A) i v :
  put s i v = Returns s' -> length s' = length s.
Proof.
  unfold put. destruct (i <? length s); [|discriminate].
  intros [= <-]. apply length_insert.
Qed.

Lemma scan_cities_length dim lines cities i flag cities' :
  scan_cities ParseFloat dim lines cities i flag = Returns cities' ->
  length cities' = length cities.
Proof.
  revert cities i flag. induction lines as [|l lines IH]; intros cities i flag H.
  - now injection H as <-.
  - cbn in H. destruct (Contains l "EOF"); [now injection H as <-|].
    destruct flag.
    + destruct (tokenize l) as [[x y]| |]; cbn in H; try discriminate.
      destruct (Z.of_nat i <=? dim)%Z; [|eauto].
      destruct (put cities (i - 1) (mkCity x y)) as [c| |] eqn:E; cbn in H; try discriminate.
      apply IH in H. rewrite H. eapply put_Returns, E.
    + destruct (Contains l "NODE_COORD_SECTION"); eauto.
Qed.

Lemma scan_cities_skip dim lines rest cities i :
  Forall (fun l => Contains l "EOF" = false /\ Contains l "NODE_COORD_SECTION" = false)
         lines ->
  scan_cities ParseFloat dim (lines ++ rest) cities i false = scan_cities ParseFloat dim rest cities i false.
Proof.
  induction 1 as [|l lines [He Hs] _ IH]; [reflexivity|].
  cbn. now rewrite He, Hs.
Qed.

Lemma scan_cities_end dim tail cities i flag :
  tail = [] \/ (exists eof rest, tail = eof :: rest /\ Contains eof "EOF" = true) ->
  scan_cities ParseFloat dim tail cities i flag = Returns cities.
Proof.
  intros [->|(eof & rest & -> & He)]; cbn; [reflexivity|now rewrite He].
Qed.

(** The coordinate lines, read into the cities that follow [done]. *)
Lemma scan_cities_coords dim (coords : list (String.string * city)) tail done free :
  Forall (fun lc => Contains lc.1 "EOF" = false /\
                    tokenize lc.1 = Returns (x lc.2, y lc.2)) coords ->
  (Z.of_nat (length done + length coords) <= dim)%Z ->
  length coords <= free ->
  scan_cities ParseFloat dim (map fst coords ++ tail)
              (done ++ replicate free (mkCity 0 0)) (S (length done)) true
  = scan_cities ParseFloat dim tail
                (done ++ map snd coords ++ replicate (free - length coords) (mkCity 0 0))
                (S (length done + length coords)) true.
Proof.
  intros Hcoords. revert done free.
  induction Hcoords as [|[l c] coords [He Ht] _ IH]; intros done free Hdim Hfree.
  - cbn. now rewrite Nat.add_0_r, Nat.sub_0_r.
  - cbn [map fst snd app length] in *. cbn [scan_cities].
    cbn in He, Ht. rewrite He, Ht. cbn [mbind outcome_bind].
    destruct (Z.leb_spec (Z.of_nat (S (length done))) dim) as [_|?]; [|lia].
    destruct free as [|free]; [lia|].
    unfold put. rewrite length_app, length_replicate.
    destruct (Nat.ltb_spec (S (length done) - 1) (length done + S free)) as [_|?]; [|lia].
    cbn [mbind outcome_bind].
    replace (S (length done) - 1) with (length done + 0) by lia.
    rewrite insert_app_r. cbn [replicate insert list_insert].
    replace (mkCity (x c) (y c)) with c by now destruct c.
    specialize (IH (done ++ [c]) free).
    rewrite length_app in IH. cbn [length] in IH.
    replace (S (length done + 1)) with (S (S (length done))) in IH by lia.
    rewrite <- !app_assoc in IH. cbn [app] in IH.
    rewrite IH by lia.
    replace (length done + 1 + length coords) with (length done + S (length coords)) by lia.
    reflexivity.
Qed.

End ReadingFacts.

(** ** The dimension line *)

(** X17. A line without a colon makes [getDim] panic: [strings.Split] gives
    one part only, and [s[1]] is out of range. *)
Theorem getDim_without_colon Atoi str :
  Contains str ":" = false -> getDim Atoi str = Panics.
Proof.
  intros H. unfold getDim. now rewrite (Split_without ":"%char str H).
Qed.

Lemma getDim_without_colon_witness :
  getDim Atoi_decimal "DIMENSION 52" = Panics.
Proof.
  apply (getDim_without_colon Atoi_decimal "DIMENSION 52"%string). reflexivity.
Defined.

(** X18. [getDim] reads the number between the first colon and the second
    (or the end of the line), the spaces before it dropped and nothing
    else: it returns what [strconv.Atoi] makes of that part, and exits when
    [strconv.Atoi] refuses it. *)
Theorem getDim_second_part Atoi p0 p1 parts :
  Forall (fun p => Contains p ":" = false) (p0 :: p1 :: parts) ->
  getDim Atoi (String.concat ":" (p0 :: p1 :: parts))
  = match Atoi (TrimLeft p1 " ") with
    | Some dim => Returns dim
    | None => Exits
    end.
Proof.
  intros H. unfold getDim. now rewrite (Split_concat ":"%char p0 (p1 :: parts) H).
Qed.

Lemma getDim_second_part_witness :
  getDim Atoi_decimal "DIMENSION :  52" = Returns 52%Z /\
  getDim Atoi_decimal "DIMENSION: 52 " = Exits.
Proof.
  split.
  - apply (getDim_second_part Atoi_decimal "DIMENSION "%string "  52"%string []).
    repeat constructor.
  - apply (getDim_second_part Atoi_decimal "DIMENSION"%string " 52 "%string []).
    repeat constructor.
Defined.

(** ** A coordinate line *)

(** X19. [tokenize] takes the second and the third of the parts that single
    spaces separate, whatever comes first and whatever follows: the
    coordinates are what [strconv.ParseFloat] makes of the two, and
    [tokenize] exits when it refuses one of them. *)
Theorem tokenize_second_and_third ParseFloat p0 p1 p2 parts :
  Forall (fun p => Contains p " " = false) (p0 :: p1 :: p2 :: parts) ->
  tokenize ParseFloat (String.concat " " (p0 :: p1 :: p2 :: parts))
  = match ParseFloat p1, ParseFloat p2 with
    | Some x, Some y => Returns (x, y)
    | _, _ => Exits
    end.
Proof.
  intros H. unfold tokenize. rewrite (Split_concat " "%char p0 (p1 :: p2 :: parts) H). cbn.
  destruct (ParseFloat p1); cbn; [|reflexivity]. now destruct (ParseFloat p2).
Qed.

Lemma tokenize_second_and_third_witness :
  tokenize ParseFloat_digits "2 3 4" = Returns (3%float, 4%float) /\
  tokenize ParseFloat_digits " 2 3 4" = Returns (2%float, 3%float) /\
  tokenize ParseFloat_digits "2  3 4" = Exits.
Proof.
  split; [|split].
  - apply (tokenize_second_and_third ParseFloat_digits "2"%string "3"%string "4"%string []). repeat constructor.
  - apply (tokenize_second_and_third ParseFloat_digits ""%string "2"%string "3"%string ["4"%string]).
    repeat constructor.
  - apply (tokenize_second_and_third ParseFloat_digits "2"%string ""%string "3"%string ["4"%string]).
    repeat constructor.
Defined.

(** X20. A line with fewer than two spaces makes [tokenize] panic: there is
    no [s[2]].  The empty line is one of them. *)
Theorem tokenize_short ParseFloat parts :
  Forall (fun p => Contains p " " = false) parts ->
  length parts < 3 ->
  tokenize ParseFloat (String.concat " " parts) = Panics.
Proof.
  intros H Hlen. unfold tokenize.
  destruct parts as [|p0 parts]; [reflexivity|].
  rewrite (Split_concat " "%char p0 parts H).
  destruct parts as [|p1 [|p2 parts]]; cbn in *; try reflexivity. lia.
Qed.

Lemma tokenize_short_witness :
  tokenize ParseFloat_digits "" = Panics /\
  tokenize ParseFloat_digits "3 4" = Panics.
Proof.
  split.
  - apply (tokenize_short ParseFloat_digits []); [constructor|cbn; lia].
  - apply (tokenize_short ParseFloat_digits ["3"; "4"]%string); [repeat constructor|cbn; lia].
Defined.

(** ** The file *)

(** X21. Without a line that contains DIMENSION the whole file goes by in
    the first loop, and [readFile] returns no city (or exits, if the
    scanner reports an error). *)
Theorem readFile_without_dimension Atoi ParseFloat lines err :
  Forall (fun l => Contains l "DIMENSION" = false) lines ->
  readFile Atoi ParseFloat (File lines err) = if err then Exits else Returns [].
Proof.
  intros H. unfold readFile. now rewrite scan_dimension_none.
Qed.

Lemma readFile_without_dimension_witness :
  readFile Atoi_decimal ParseFloat_digits
           (File ["NODE_COORD_SECTION"; "1 0 0"; "2 3 4"; "EOF"]%string false)
  = Returns [].
Proof.
  apply (readFile_without_dimension Atoi_decimal ParseFloat_digits
           ["NODE_COORD_SECTION"; "1 0 0"; "2 3 4"; "EOF"]%string false).
  repeat constructor.
Defined.

Lemma readFile_length_inv Atoi ParseFloat header dimline rest err cities :
  Forall (fun l => Contains l "DIMENSION" = false) header ->
  Contains dimline "DIMENSION" = true ->
  readFile Atoi ParseFloat (File (header ++ dimline :: rest) err) = Returns cities ->
  exists dim, getDim Atoi dimline = Returns dim /\ (0 <= dim)%Z /\
              length cities = Z.to_nat dim.
Proof.
  intros Hh Hd H. unfold readFile in H.
  rewrite scan_dimension_first in H by assumption.
  destruct (getDim Atoi dimline) as [dim| |]; cbn in H; try discriminate.
  exists dim. split; [reflexivity|].
  unfold make_cities in H. destruct (Z.ltb_spec dim 0); cbn in H; [discriminate|].
  split; [lia|].
  destruct (scan_cities _ _ _ _ _ _) as [cities'| |] eqn:E; cbn in H; try discriminate.
  destruct err; [discriminate|]. injection H as <-.
  apply scan_cities_length in E. now rewrite E, length_replicate.
Qed.

(** X22. When [readFile] returns, the number of cities is the number that
    [getDim] read on the first line that contains DIMENSION, whatever the
    coordinate section holds. *)
Theorem readFile_length Atoi ParseFloat header dimline rest err cities :
  Forall (fun l => Contains l "DIMENSION" = false) header ->
  Contains dimline "DIMENSION" = true ->
  readFile Atoi ParseFloat (File (header ++ dimline :: rest) err) = Returns cities ->
  exists dim, getDim Atoi dimline = Returns dim /\ (0 <= dim)%Z /\
              length cities = Z.to_nat dim.
Proof. apply readFile_length_inv. Qed.

Lemma readFile_length_witness :
  exists cities,
    readFile Atoi_decimal ParseFloat_digits
             (File ["NAME : short"; "DIMENSION : 3"; "NODE_COORD_SECTION"; "1 5 7"]%string
                   false) = Returns cities /\
    cities = [mkCity 5 7; mkCity 0 0; mkCity 0 0] /\
    exists dim, getDim Atoi_decimal "DIMENSION : 3" = Returns dim /\ (0 <= dim)%Z /\
                length cities = Z.to_nat dim.
Proof.
  eexists. split; [reflexivity|]. split; [reflexivity|].
  apply (readFile_length Atoi_decimal ParseFloat_digits ["NAME : short"%string]
           "DIMENSION : 3"%string ["NODE_COORD_SECTION"; "1 5 7"]%string false).
  - repeat constructor.
  - reflexivity.
  - reflexivity.
Defined.

Section WellFormed.

Variable Atoi : String.string -> option Z.
Variable ParseFloat : String.string -> option float.

(** The lines up to the coordinates: a header, the dimension line, lines
    that are passed over, and the line that opens the coordinate section. *)
Variables header middle : list String.string.
Variables dimline section : String.string.
Variable dim : Z.
Variable coords : list (String.string * city).

Hypothesis header_lines : Forall (fun l => Contains l "DIMENSION" = false) header.
Hypothesis dimension_line : Contains dimline "DIMENSION" = true.
Hypothesis dimension : getDim Atoi dimline = Returns dim.
Hypothesis middle_lines :
  Forall (fun l => Contains l "EOF" = false /\ Contains l "NODE_COORD_SECTION" = false)
         middle.
Hypothesis section_line :
  Contains section "EOF" = false /\ Contains section "NODE_COORD_SECTION" = true.
Hypothesis coord_lines :
  Forall (fun lc => Contains lc.1 "EOF" = false /\
                    tokenize ParseFloat lc.1 = Returns (x lc.2, y lc.2)) coords.
Hypothesis coords_fit : (Z.of_nat (length coords) <= dim)%Z.

Lemma readFile_coords rest err :
  readFile Atoi ParseFloat
    (File (header ++ dimline :: middle ++ section :: map fst coords ++ rest) err)
  = cities ← scan_cities ParseFloat dim rest
               (map snd coords ++
                replicate (Z.to_nat dim - length coords) (mkCity 0 0))
               (S (length coords)) true;
    if err then Exits else Returns cities.
Proof.
  unfold readFile. rewrite scan_dimension_first by assumption.
  rewrite dimension. cbn [mbind outcome_bind].
  unfold make_cities. destruct (Z.ltb_spec dim 0) as [?|_]; [lia|].
  cbn [mbind outcome_bind].
  rewrite scan_cities_skip by exact middle_lines.
  destruct section_line as [He Hs]. cbn [scan_cities]. rewrite He, Hs.
  pose proof (scan_cities_coords ParseFloat dim coords rest [] (Z.to_nat dim)
                coord_lines) as Hcoords.
  cbn [app length Nat.add] in Hcoords. rewrite Hcoords by lia. reflexivity.
Qed.

End WellFormed.







(** ** From the file to the run *)

(** X26. A file without a line that contains DIMENSION is read without
    complaint, and [main] then panics in its first round: there is no
    city. *)
Theorem main_panics_without_dimension Pow Atoi ParseFloat cfg lines cities fuel src :
  0 < times cfg -> 0 < tours cfg ->
  Forall (fun l => Contains l "DIMENSION" = false) lines ->
  readFile Atoi ParseFloat (File lines false) = Returns cities ->
  main Pow cfg cities fuel src = Panic.
Proof.
  intros Htimes Htours Hlines H. unfold readFile in H.
  rewrite scan_dimension_none in H by exact Hlines.
  injection H as <-. now apply main_without_cities.
Qed.

Lemma main_panics_without_dimension_witness :
  main Pow_special linear [] 10 (script []) = Panic.
Proof.
  apply (main_panics_without_dimension Pow_special Atoi_decimal ParseFloat_digits linear
           ["NODE_COORD_SECTION"; "1 0 0"; "2 3 4"; "EOF"]%string [] 10 (script [])).
  - cbn. lia.
  - cbn. lia.
  - repeat constructor.
  - reflexivity.
Defined.

(** X27. Whatever else the file holds, when the dimension that [getDim]
    read is positive and [readFile] returns, [main] runs on its cities
    without a panic (there is an ant). *)
Theorem main_never_panics_on_file
  Pow Atoi ParseFloat cfg header dimline rest err dim cities fuel src :
  0 < numAnts cfg ->
  Forall (fun l => Contains l "DIMENSION" = false) header ->
  Contains dimline "DIMENSION" = true ->
  getDim Atoi dimline = Returns dim ->
  (0 < dim)%Z ->
  readFile Atoi ParseFloat (File (header ++ dimline :: rest) err) = Returns cities ->
  main Pow cfg cities fuel src <> Panic.
Proof.
  intros Hants Hh Hd Hdim Hpos H.
  apply readFile_length_inv in H as (dim' & Hdim' & _ & Hlen); [|exact Hh|exact Hd].
  assert (dim' = dim) as -> by congruence.
  apply (safe_not_Panic (fun _ => True)). apply safe_main; [|exact Hants].
  intros ->. cbn in Hlen. lia.
Qed.

Lemma main_never_panics_on_file_witness :
  main Pow_special two_experiments [mkCity 0 0; mkCity 3 4; mkCity 6 8] 10 (script [])
  <> Panic.
Proof.
  apply (main_never_panics_on_file Pow_special Atoi_decimal ParseFloat_digits two_experiments
           ["NAME : three"; "TYPE : TSP"]%string "DIMENSION : 3"%string
           ["EDGE_WEIGHT_TYPE : EUC_2D"; "NODE_COORD_SECTION"; "1 0 0"; "2 3 4"; "3 6 8";
            "EOF"]%string
           false 3%Z [mkCity 0 0; mkCity 3 4; mkCity 6 8] 10 (script [])).
  - cbn. lia.
  - repeat constructor.
  - reflexivity.
  - reflexivity.
  - lia.
  - reflexivity.
Defined.
